(** * Terminal Sound Effects: playback engine, fetcher and debounce

    A shallow embedding of the core of the extension
    ([audioPlayer.ts], [sfxManager.ts], [terminalMonitor.ts]).

    Conventions.
    - JavaScript numbers that are integers in the source (timestamps,
      status codes, byte counts, the 0-100 volume setting) are [Z];
      the quotient [Math.max(0, volume) / 50] is a rational [Q].
    - Callbacks and timers are modelled by explicit state: a child
      process carries its pending timer, its exit listener and the
      history of what happened to it, with time in milliseconds.
    - File-system and network calls are recorded as a list of [io]
      events that is replayed on a disk (a [gmap] from paths to bytes). *)

From stdpp Require Import gmap strings pretty list.
From Stdlib Require Import Ascii QArith Qminmax Permutation.
From Stdlib Require Floats.SpecFloat.
From Equations Require Import Equations.
From Equations.Prop Require Import Logic.

Local Open Scope Z_scope.

(** ** JavaScript helpers *)

Module Js.

(** Truthiness of a string: only the empty string is falsy. *)
Definition truthy (s : string) : bool := negb (String.eqb s "").

(** [s.endsWith(suffix)] *)
Definition endsWith (s suffix : string) : bool :=
  let n := String.length s in
  let m := String.length suffix in
  if (m <=? n)%nat then String.eqb (String.substring (n - m) m s) suffix else false.

(** [s.replace(/'/g, "''")] *)
Fixpoint doubleQuotes (s : string) : string :=
  match s with
  | EmptyString => EmptyString
  | String c rest =>
      if Ascii.eqb c "'"%char
      then String "'"%char (String "'"%char (doubleQuotes rest))
      else String c (doubleQuotes rest)
  end.

(** The one-character string holding a double quote (code 34). *)
Definition dquote : string := String (Ascii.ascii_of_nat 34) EmptyString.

(** [Math.round(a / b)] for integers [a] and [b > 0]: the nearest
    integer, halves rounded towards plus infinity. *)
Definition roundDiv (a b : Z) : Z := (2 * a + b) / (2 * b).

End Js.

(** ** audioPlayer.ts *)

Module AudioPlayer.

Definition MAX_PLAYBACK_MS : Z := 20000.

Record PlaybackOptions := { filePath : string; volume : Z }.

(** An argument handed to [execFile].  [NumStr x] stands for
    [String(x)] of a number that need not be an integer; its decimal
    rendering is left uninterpreted. *)
Inductive arg :=
| Str (s : string)
| NumStr (x : Q).

(** What the operating system does with a command: the executable
    cannot be started, the process exits by itself [d] milliseconds
    after it was spawned with an exit code, or it never exits. *)
Inductive behaviour :=
| CannotStart
| ExitsAfter (d : Z) (code : Z)
| NeverExits.

Definition system := string -> list arg -> behaviour.

(** Things that happen to a child process, each stamped with its time.
    [Exit None] is an exit caused by a signal. *)
Inductive occurrence :=
| Exit (code : option Z)
| TimerCleared
| TimerFired
| Kill.

Record ChildProcess := {
  spawnedAt : Z;
  started : bool;                (* false when the spawn itself failed *)
  running : bool;                (* the OS process is alive *)
  naturalExit : option (Z * Z);  (* pending exit: absolute time, code *)
  killed : bool;                 (* proc.killed *)
  timer : option Z;              (* deadline of the pending kill timer *)
  exitListener : bool;           (* proc.on('exit', ...) is registered *)
  history : list (Z * occurrence)
}.

Definition record (t : Z) (o : occurrence) (p : ChildProcess) : ChildProcess :=
  {| spawnedAt := spawnedAt p; started := started p; running := running p;
     naturalExit := naturalExit p; killed := killed p; timer := timer p;
     exitListener := exitListener p; history := history p ++ [(t, o)] |}.

Definition setTimer (d : option Z) (p : ChildProcess) : ChildProcess :=
  {| spawnedAt := spawnedAt p; started := started p; running := running p;
     naturalExit := naturalExit p; killed := killed p; timer := d;
     exitListener := exitListener p; history := history p |}.

(** [execFile(cmd, args, callback)] at time [now]. *)
Definition execFile (b : behaviour) (now : Z) : ChildProcess :=
  {| spawnedAt := now;
     started := match b with CannotStart => false | _ => true end;
     running := match b with CannotStart => false | _ => true end;
     naturalExit := match b with ExitsAfter d code => Some (now + d, code) | _ => None end;
     killed := false; timer := None; exitListener := false; history := [] |}.

(** [killAfterTimeout(proc)]: arm the timer, register the exit listener. *)
Definition killAfterTimeout (now : Z) (p : ChildProcess) : ChildProcess :=
  {| spawnedAt := spawnedAt p; started := started p; running := running p;
     naturalExit := naturalExit p; killed := killed p;
     timer := Some (now + MAX_PLAYBACK_MS);
     exitListener := true; history := history p |}.

(** [clearTimeout(timer)] *)
Definition clearTimeout (t : Z) (p : ChildProcess) : ChildProcess :=
  record t TimerCleared (setTimer None p).

(** The process ends at time [t]; the ['exit'] event runs the listener
    registered by [killAfterTimeout], if any. *)
Definition emitExit (t : Z) (code : option Z) (p : ChildProcess) : ChildProcess :=
  let p :=
    {| spawnedAt := spawnedAt p; started := started p; running := false;
       naturalExit := None; killed := killed p; timer := timer p;
       exitListener := exitListener p; history := history p ++ [(t, Exit code)] |} in
  if exitListener p then clearTimeout t p else p.

(** [proc.kill()]: signals a live process, which then exits; on a
    process that is gone it returns false and changes nothing. *)
Definition kill (t : Z) (p : ChildProcess) : ChildProcess :=
  if running p then
    emitExit t None
      {| spawnedAt := spawnedAt p; started := started p; running := running p;
         naturalExit := naturalExit p; killed := true; timer := timer p;
         exitListener := exitListener p; history := history p ++ [(t, Kill)] |}
  else p.

(** The [setTimeout] callback: [if (!proc.killed) proc.kill()]. *)
Definition onTimeout (t : Z) (p : ChildProcess) : ChildProcess :=
  let p := record t TimerFired (setTimer None p) in
  if killed p then p else kill t p.

(** One turn of the event loop for this process: the earlier of the
    pending natural exit and the pending timer is delivered.  When both
    fall on the same millisecond [exitFirst] decides the order. *)
Definition step (exitFirst : bool) (p : ChildProcess) : option ChildProcess :=
  match timer p, (if running p then naturalExit p else None) with
  | None, None => None
  | Some due, None => Some (onTimeout due p)
  | None, Some (te, code) => Some (emitExit te (Some code) p)
  | Some due, Some (te, code) =>
      if (te <? due) || ((te =? due) && exitFirst)
      then Some (emitExit te (Some code) p)
      else Some (onTimeout due p)
  end.

Fixpoint settle (fuel : nat) (exitFirst : bool) (p : ChildProcess) : ChildProcess :=
  match fuel with
  | O => p
  | S fuel' =>
      match step exitFirst p with
      | Some p' => settle fuel' exitFirst p'
      | None => p
      end
  end.

(** Two events can be pending for one process, so two turns settle it. *)
Definition lifetime : nat := 2.

(** The [err] argument of the [execFile] callback and the time it is
    called: at once when the spawn failed, otherwise at the exit, with
    an error unless the exit code is 0.  [None]: never called. *)
Definition exitOf (h : list (Z * occurrence)) : option (Z * option Z) :=
  match List.filter (fun e => match snd e with Exit _ => true | _ => false end) h with
  | (t, Exit code) :: _ => Some (t, code)
  | _ => None
  end.

Definition completion (p : ChildProcess) : option (Z * bool) :=
  if started p then
    match exitOf (history p) with
    | Some (t, Some code) => Some (t, negb (code =? 0))
    | Some (t, None) => Some (t, true)
    | None => None
    end
  else Some (spawnedAt p, true).

(** The callback of [execFile] was called with an error. *)
Definition failed (p : ChildProcess) : bool :=
  match completion p with
  | Some (_, true) => true
  | _ => false
  end.

(** The process ends by itself before the kill timer is due. *)
Definition exitsInTime (exitFirst : bool) (d : Z) : bool :=
  (d <? MAX_PLAYBACK_MS) || ((d =? MAX_PLAYBACK_MS) && exitFirst).

(** A command that cannot be started or whose process ends with an
    error: a non-zero exit code, or the signal of the kill timer. *)
Definition fails (exitFirst : bool) (b : behaviour) : bool :=
  match b with
  | CannotStart => true
  | ExitsAfter d code => if exitsInTime exitFirst d then negb (code =? 0) else true
  | NeverExits => true
  end.

(** Effects of the playback engine that can be observed from outside:
    processes it spawned (with everything that happened to them) and
    lines written with [console.error]. *)
Inductive effect :=
| Spawned (cmd : string) (args : list arg) (proc : ChildProcess)
| ConsoleError (prefix : string).

(** [killAfterTimeout(execFile(cmd, args, cb))] at time [now], run
    until nothing is pending for the process any more. *)
Definition supervised (sys : system) (exitFirst : bool) (now : Z)
    (cmd : string) (args : list arg) : ChildProcess :=
  settle lifetime exitFirst (killAfterTimeout now (execFile (sys cmd args) now)).

(** [logError(err)] *)
Definition logError (err : option (Z * bool)) : list effect :=
  match err with
  | Some (_, true) => [ConsoleError "[Terminal Sound Effects] Playback error:"]
  | _ => []
  end.

(** The [players] array of [tryLinuxPlayers]. *)
Definition players (filePath : string) (volume : Z) : list (string * list arg) :=
  [ ("paplay", [Str "--volume"; Str (pretty (Js.roundDiv (volume * 65536) 100)); Str filePath]);
    ("aplay", [Str filePath]);
    ("mpv", [Str "--no-video"; Str ("--volume=" +:+ pretty volume); Str filePath]) ].

(** [tryNext(index)].  [candidates !! index = None] is the source's
    [index >= players.length].  The callback of [execFile] calls
    [tryNext(index + 1)] when it is given an error, at the time the
    callback runs. *)
Equations? tryNext (sys : system) (exitFirst : bool)
    (candidates : list (string * list arg)) (index : nat) (now : Z)
    : list effect by wf (length candidates - index)%nat lt :=
  tryNext sys exitFirst candidates index now with inspect (candidates !! index) := {
    | exist _ None _ => [];
    | exist _ (Some (cmd, args)) Hlookup
        with inspect (completion (supervised sys exitFirst now cmd args)) := {
        | exist _ (Some (t, true)) _ =>
            Spawned cmd args (supervised sys exitFirst now cmd args)
              :: tryNext sys exitFirst candidates (S index) t;
        | exist _ _ _ =>
            [Spawned cmd args (supervised sys exitFirst now cmd args)] } }.
Proof. apply lookup_lt_Some in Hlookup. lia. Qed.

Definition tryLinuxPlayers (sys : system) (exitFirst : bool) (now : Z)
    (filePath : string) (volume : Z) : list effect :=
  tryNext sys exitFirst (players filePath volume) 0 now.

(** [playWindows(filePath)] *)
Definition playWindows (sys : system) (exitFirst : bool) (now : Z)
    (filePath : string) : list effect :=
  if Js.endsWith filePath ".wav" then
    let script :=
      "(New-Object System.Media.SoundPlayer '" +:+ Js.doubleQuotes filePath
        +:+ "').PlaySync()" in
    let args := [Str "-NoProfile"; Str "-Command"; Str script] in
    let proc := supervised sys exitFirst now "powershell" args in
    Spawned "powershell" args proc :: logError (completion proc)
  else
    let args :=
      [Str "-NoProfile"; Str "-Command";
       Str ("Start-Process wmplayer -ArgumentList '" +:+ Js.dquote +:+ filePath
              +:+ Js.dquote +:+ "' -Wait")] in
    let proc := supervised sys exitFirst now "powershell" args in
    Spawned "powershell" args proc :: logError (completion proc).

(** The number handed to [afplay -v]: [Math.max(0, volume) / 50]. *)
Definition afplayVolume (volume : Q) : Q := Qmax 0 volume / 50.

(** [playSound(options)] on the platform named by [os.platform()]. *)
Definition playSound (platform : string) (sys : system) (exitFirst : bool)
    (now : Z) (options : PlaybackOptions) : list effect :=
  if String.eqb platform "darwin" then
    let args :=
      [Str "-v"; NumStr (afplayVolume (inject_Z (volume options)));
       Str (filePath options)] in
    let proc := supervised sys exitFirst now "afplay" args in
    Spawned "afplay" args proc :: logError (completion proc)
  else if String.eqb platform "linux" then
    tryLinuxPlayers sys exitFirst now (filePath options) (volume options)
  else if String.eqb platform "win32" then
    playWindows sys exitFirst now (filePath options)
  else [].

(** Reading a PowerShell single-quoted literal, from just after its
    opening quote: two quotes stand for one, a single quote ends the
    literal.  The result is the text of the literal and what follows
    it; [None] when the literal is not closed. *)
Fixpoint readSingleQuoted (s : string) : option (string * string) :=
  match s with
  | EmptyString => None
  | String c rest =>
      if Ascii.eqb c "'"%char then
        match rest with
        | String c2 rest2 =>
            if Ascii.eqb c2 "'"%char then
              match readSingleQuoted rest2 with
              | Some (text, after) => Some (String "'"%char text, after)
              | None => None
              end
            else Some (EmptyString, rest)
        | EmptyString => Some (EmptyString, EmptyString)
        end
      else
        match readSingleQuoted rest with
        | Some (text, after) => Some (String c text, after)
        | None => None
        end
  end.


End AudioPlayer.

(** ** terminalMonitor.ts *)

Module TerminalMonitor.

(** The part of [vscode.TerminalShellExecutionEndEvent] the monitor
    reads; [None] is an [undefined] exit code. *)
Record TerminalShellExecutionEndEvent := { exitCode : option Z }.

(** The listener registered with [onDidEndTerminalShellExecution]:
    [if (event.exitCode !== undefined && event.exitCode !== 0) onError()].
    The callback acts on a state of type [S]. *)
Definition listener {S : Type} (onError : S -> S)
    (event : TerminalShellExecutionEndEvent) (s : S) : S :=
  match exitCode event with
  | Some code => if negb (code =? 0) then onError s else s
  | None => s
  end.

(** The exit code is known and is not zero. *)
Definition failedCommand (event : TerminalShellExecutionEndEvent) : Prop :=
  exists code, exitCode event = Some code /\ code <> 0.

End TerminalMonitor.

(** ** generateSounds.ts and sfxManager.ts *)

Module SfxManager.
Import AudioPlayer.

Record SoundEntry := { name : string; label : string; file : string; emoji : string }.

(** [getBuiltInSoundFile]: [scanSoundsDir(dir).find(s => s.name === name)?.file],
    given the entries the scan returns. *)
Definition getBuiltInSoundFile (sounds : list SoundEntry) (n : string) : option string :=
  file <$> List.find (fun s => String.eqb (name s) n) sounds.

(** [path.join(dir, name)] for a normalised directory and a single
    path segment. *)
Definition join (dir segment : string) : string := dir +:+ "/" +:+ segment.

(** What the manager reads from the editor and the file system: the
    [terminalSfx] settings, [path.isAbsolute], [fs.existsSync] and the
    scan of the built-in sounds directory. *)
Record Host := {
  enabled : bool;
  selectedSound : string;
  volumeSetting : Z;
  isAbsolute : string -> bool;
  existsSync : string -> bool;
  builtInDir : string;
  builtInSounds : list SoundEntry
}.

Definition resolveSelectedSound (h : Host) : option string :=
  let selected := selectedSound h in
  if negb (Js.truthy selected) then None
  else if isAbsolute h selected then
    (if existsSync h selected then Some selected else None)
  else
    match getBuiltInSoundFile (builtInSounds h) selected with
    | Some f =>
        if Js.truthy f then
          let fullPath := join (builtInDir h) f in
          if existsSync h fullPath then Some fullPath else None
        else None
    | None => None
    end.

Definition DEBOUNCE_MS : Z := 300.

(** The mutable field of the manager; [lastPlayTime = 0] at start. *)
Record State := { lastPlayTime : Z }.

Definition fresh : State := {| lastPlayTime := 0 |}.

(** [handleError()] when [Date.now()] reads [now]: the new state and
    the options handed to [playSound], if it is called. *)
Definition handleError (h : Host) (now : Z) (st : State)
    : State * option PlaybackOptions :=
  if negb (enabled h) then (st, None)
  else if now - lastPlayTime st <? DEBOUNCE_MS then (st, None)
  else
    let st := {| lastPlayTime := now |} in
    match resolveSelectedSound h with
    | Some p =>
        if Js.truthy p
        then (st, Some {| filePath := p; volume := volumeSetting h |})
        else (st, None)
    | None => (st, None)
    end.

(** A sequence of alerts, given by the clock reading at each; the
    result lists the calls to [playSound] with the time of each. *)
Fixpoint handleErrors (h : Host) (times : list Z) (st : State)
    : State * list (Z * PlaybackOptions) :=
  match times with
  | [] => (st, [])
  | now :: rest =>
      let '(st1, played) := handleError h now st in
      let '(st2, later) := handleErrors h rest st1 in
      (st2, match played with Some o => (now, o) :: later | None => later end)
  end.

(** Consecutive times are at least [DEBOUNCE_MS] apart, the first one
    at least that far from [last]. *)
Fixpoint spaced (last : Z) (times : list Z) : Prop :=
  match times with
  | [] => True
  | t :: rest => DEBOUNCE_MS <= t - last /\ spaced t rest
  end.

Definition MAX_FILE_BYTES : Z := 5 * 1024 * 1024.

(** What [client.get(url, callback)] leads to: a whole response with
    its status code, [location] header and body chunks; a failure of
    the request itself (the ['error'] event of the request); a call
    that throws at once, before any request is made; or a response that
    began, delivered some chunks and then lost its connection, which
    calls no handler that the code has registered. *)
Inductive reply :=
| Response (statusCode : Z) (location : option string) (body : list (list Byte.byte))
| RequestError (err : string)
| Refused (err : string)
| Interrupted (statusCode : Z) (location : option string)
              (received : list (list Byte.byte)).

(** [url.startsWith('https') ? https : http] *)
Inductive client := http | https.

Definition clientOf (url : string) : client :=
  if String.prefix "https" url then https else http.

Definition expectedProtocol (c : client) : string :=
  match c with
  | http => "http:"
  | https => "https:"
  end.

(** The surroundings of a download.  [pathname url] is
    [new URL(url).pathname], [None] when the constructor throws, and
    [protocol url] is [new URL(url).protocol]; [extname] is
    [path.extname].  [network n url] is what the request for [url] made
    by the [n]-th invocation in a redirect chain leads to once the
    client has taken the URL, and [clock n] is what [Date.now()] reads
    in that invocation. *)
Record World := {
  pathname : string -> option string;
  protocol : string -> string;
  extname : string -> string;
  downloadDir : string;
  network : nat -> string -> reply;
  clock : nat -> Z
}.

(** [client.get(url, ...)] with the client chosen from the first
    characters of the URL: a client throws for a URL whose protocol is
    not its own, otherwise the network answers. *)
Definition server (w : World) (n : nat) (url : string) : reply :=
  if String.eqb (protocol w url) (expectedProtocol (clientOf url))
  then network w n url
  else Refused ("Protocol " +:+ Js.dquote +:+ protocol w url +:+ Js.dquote
                  +:+ " not supported. Expected " +:+ Js.dquote
                  +:+ expectedProtocol (clientOf url) +:+ Js.dquote).

(** The value a promise is rejected with. *)
Inductive JsError :=
| Error (message : string)       (* new Error(message) *)
| InvalidUrl                     (* the TypeError of new URL(url) *)
| TransportError (err : string)  (* the err of the 'error' event *)
| Thrown (err : string).         (* what client.get threw *)

(** The state of the promise returned by [downloadFromUrl]. *)
Inductive outcome :=
| Resolved (destPath : string)
| Rejected (e : JsError)
| Pending.

(** File-system and network calls, in the order they are made. *)
Inductive io :=
| CreateWriteStream (path : string)
| HttpGet (url : string)
| Write (path : string) (chunk : list Byte.byte)
| Close (path : string)
| Unlink (path : string)
| DestroyResponse.

(** [path.extname(new URL(url).pathname) || '.mp3'] *)
Definition extOf (w : World) (path : string) : string :=
  if Js.truthy (extname w path) then extname w path else ".mp3".

Definition filename (w : World) (n : nat) (path : string) : string :=
  "custom-" +:+ pretty (clock w n) +:+ extOf w path.

Definition destPathOf (w : World) (n : nat) (path : string) : string :=
  join (downloadDir w) (filename w n path).

(** The body of a 200 response: the ['data'] handler counts the bytes
    and gives up above the cap, [response.pipe(file)] writes the chunk,
    ['finish'] closes the file and resolves.  The chunk that crosses
    the cap reaches a stream that is already closed and is not written. *)
Fixpoint receive (destPath : string) (chunks : list (list Byte.byte)) (received : Z)
    : outcome * list io :=
  match chunks with
  | [] => (Resolved destPath, [Close destPath])
  | chunk :: rest =>
      let received := received + Z.of_nat (length chunk) in
      if MAX_FILE_BYTES <? received then
        (Rejected (Error "File too large (max 5MB)"),
         [DestroyResponse; Close destPath; Unlink destPath])
      else
        let '(o, log) := receive destPath rest received in
        (o, Write destPath chunk :: log)
  end.

(** The body of a 200 response whose connection is lost after the
    given chunks: they are counted and written as usual, but neither
    ['finish'] nor any error handler of the code runs afterwards. *)
Fixpoint receiveLost (destPath : string) (chunks : list (list Byte.byte)) (received : Z)
    : outcome * list io :=
  match chunks with
  | [] => (Pending, [])
  | chunk :: rest =>
      let received := received + Z.of_nat (length chunk) in
      if MAX_FILE_BYTES <? received then
        (Rejected (Error "File too large (max 5MB)"),
         [DestroyResponse; Close destPath; Unlink destPath])
      else
        let '(o, log) := receiveLost destPath rest received in
        (o, Write destPath chunk :: log)
  end.

(** [downloadFromUrl(url)], the [n]-th invocation of a chain.  Each
    redirect that is followed uses one unit of [fuel]; without fuel the
    promise is still pending.  The calls are logged in program order,
    and a promise that was rejected stays rejected when ['finish'] later
    calls [resolve].  The write stream is created before [client.get]
    is called, so a call that throws rejects the promise with the file
    already there; the status of a response is acted on when its
    headers arrive, whether or not the body arrives whole. *)
Fixpoint downloadFromUrl (w : World) (fuel : nat) (n : nat) (url : string)
    : outcome * list io :=
  match fuel with
  | O => (Pending, [])
  | S fuel' =>
      match pathname w url with
      | None => (Rejected InvalidUrl, [])
      | Some path =>
          let destPath := destPathOf w n path in
          let opened := [CreateWriteStream destPath; HttpGet url] in
          match server w n url with
          | RequestError err =>
              (Rejected (TransportError err), opened ++ [Close destPath; Unlink destPath])
          | Response statusCode location body =>
              if (statusCode =? 301) || (statusCode =? 302) then
                let closed := opened ++ [Close destPath; Unlink destPath] in
                match location with
                | Some loc =>
                    if Js.truthy loc then
                      let '(o, log) := downloadFromUrl w fuel' (S n) loc in
                      (o, closed ++ log)
                    else (Rejected (Error "Redirect with no location header"), closed)
                | None => (Rejected (Error "Redirect with no location header"), closed)
                end
              else if negb (statusCode =? 200) then
                (Rejected (Error ("Download failed with status " +:+ pretty statusCode)),
                 opened ++ [Close destPath; Unlink destPath])
              else
                let '(o, log) := receive destPath body 0 in
                (o, opened ++ log)
          | Refused err => (Rejected (Thrown err), [CreateWriteStream destPath])
          | Interrupted statusCode location received =>
              if (statusCode =? 301) || (statusCode =? 302) then
                let closed := opened ++ [Close destPath; Unlink destPath] in
                match location with
                | Some loc =>
                    if Js.truthy loc then
                      let '(o, log) := downloadFromUrl w fuel' (S n) loc in
                      (o, closed ++ log)
                    else (Rejected (Error "Redirect with no location header"), closed)
                | None => (Rejected (Error "Redirect with no location header"), closed)
                end
              else if negb (statusCode =? 200) then
                (Rejected (Error ("Download failed with status " +:+ pretty statusCode)),
                 opened ++ [Close destPath; Unlink destPath])
              else
                let '(o, log) := receiveLost destPath received 0 in
                (o, opened ++ log)
          end
      end
  end.

(** The disk: the bytes stored under each path. *)
Abbreviation disk := (gmap string (list Byte.byte)).

Definition perform (e : io) (d : disk) : disk :=
  match e with
  | CreateWriteStream p => <[p := []]> d
  | Write p chunk => alter (fun old => old ++ chunk) p d
  | Unlink p => delete p d
  | HttpGet _ | Close _ | DestroyResponse => d
  end.

Definition replay (log : list io) (d : disk) : disk :=
  fold_left (fun d e => perform e d) log d.

(** The requests made and the destination files opened by a log. *)
Definition requests (log : list io) : list string :=
  omap (fun e => match e with HttpGet url => Some url | _ => None end) log.

Definition opened (log : list io) : list string :=
  omap (fun e => match e with CreateWriteStream p => Some p | _ => None end) log.

(** The path an [io] call creates, writes to or removes. *)
Definition touches (e : io) : option string :=
  match e with
  | CreateWriteStream p | Write p _ | Unlink p => Some p
  | HttpGet _ | Close _ | DestroyResponse => None
  end.

(** At its [i]-th request the server redirects from [u i] to [u (S i)]:
    a 301 or 302 with a non-empty [location], for a URL that parses. *)
Definition redirectsAt (w : World) (u : nat -> string) (i : nat) : Prop :=
  exists path statusCode body,
    pathname w (u i) = Some path /\
    server w i (u i) = Response statusCode (Some (u (S i))) body /\
    (statusCode = 301 \/ statusCode = 302) /\
    Js.truthy (u (S i)) = true.

(** Size of a body in bytes. *)
Definition size (body : list (list Byte.byte)) : Z := Z.of_nat (length (concat body)).

(** The failure a whole response or a request error leads to, if any:
    the error taxonomy of the fetcher (transport, missing redirect
    target, status, size). *)
Definition failureOf (r : reply) : option JsError :=
  match r with
  | RequestError err => Some (TransportError err)
  | Response statusCode location body =>
      if (statusCode =? 301) || (statusCode =? 302) then
        match location with
        | Some loc =>
            if Js.truthy loc then None
            else Some (Error "Redirect with no location header")
        | None => Some (Error "Redirect with no location header")
        end
      else if negb (statusCode =? 200) then
        Some (Error ("Download failed with status " +:+ pretty statusCode))
      else if MAX_FILE_BYTES <? size body then Some (Error "File too large (max 5MB)")
      else None
  | Refused _ => None
  | Interrupted _ _ _ => None
  end.

(** Every request of the invocation, and of the invocations it leads
    to through redirects, got a whole response or a request error. *)
Fixpoint answered (w : World) (fuel : nat) (n : nat) (url : string) : bool :=
  match fuel with
  | O => true
  | S fuel' =>
      match pathname w url with
      | None => true
      | Some _ =>
          match server w n url with
          | RequestError _ => true
          | Response statusCode location _ =>
              if (statusCode =? 301) || (statusCode =? 302) then
                match location with
                | Some loc => if Js.truthy loc then answered w fuel' (S n) loc else true
                | None => true
                end
              else true
          | Refused _ | Interrupted _ _ _ => false
          end
      end
  end.

(** An extension as [path.extname] returns it: empty, or a dot
    followed by the rest. *)
Definition dotted (ext : string) : Prop :=
  ext = "" \/ exists rest, ext = String "."%char rest.

(** No character of the string is a dot. *)
Fixpoint nodot (s : string) : Prop :=
  match s with
  | EmptyString => True
  | String c rest => c <> "."%char /\ nodot rest
  end.

(** *** Selection and settings *)

Definition DEFAULT_SOUND : string := "faah".

(** [selectSound(nameOrPath)]: the [selectedSound] setting is replaced. *)
Definition selectSound (nameOrPath : string) (h : Host) : Host :=
  {| enabled := enabled h; selectedSound := nameOrPath; volumeSetting := volumeSetting h;
     isAbsolute := isAbsolute h; existsSync := existsSync h;
     builtInDir := builtInDir h; builtInSounds := builtInSounds h |}.

(** [getBuiltInSoundNames] and [isBuiltIn(name)], on the scanned entries. *)
Definition getBuiltInSoundNames (sounds : list SoundEntry) : list string :=
  map name sounds.

Definition isBuiltIn (h : Host) (n : string) : bool :=
  existsb (String.eqb n) (getBuiltInSoundNames (builtInSounds h)).

(** [resetIfInvalid()], run by [initialize()]. *)
Definition resetIfInvalid (h : Host) : Host :=
  let selected := selectedSound h in
  if negb (Js.truthy selected) then h
  else if isAbsolute h selected && existsSync h selected then h
  else if negb (isAbsolute h selected) && isBuiltIn h selected then h
  else selectSound DEFAULT_SOUND h.

(** Messages shown to the user. *)
Inductive notice :=
| Information (text : string)
| ErrorMessage (text : string).

(** [toggle()] *)
Definition toggle (h : Host) : Host * notice :=
  let current := enabled h in
  ({| enabled := negb current; selectedSound := selectedSound h;
      volumeSetting := volumeSetting h; isAbsolute := isAbsolute h;
      existsSync := existsSync h; builtInDir := builtInDir h;
      builtInSounds := builtInSounds h |},
   Information ("Terminal Sound Effects "
                  +:+ (if negb current then "enabled" else "disabled") +:+ ".")).

(** [selectFileFromSystem()].  [picked] is what the open dialog
    returns, [stat path] the size of the file ([None] when
    [fs.promises.stat] rejects, which rejects the whole call) and
    [basename] is [path.basename]. *)
Definition selectFileFromSystem (picked : option (list string))
    (stat : string -> option Z) (basename : string -> string) (h : Host)
    : option (Host * list notice) :=
  match picked with
  | Some (filePath :: _) =>
      match stat filePath with
      | None => None
      | Some bytes =>
          if MAX_FILE_BYTES <? bytes
          then Some (h, [ErrorMessage "File too large (max 5MB)."])
          else Some (selectSound filePath h,
                     [Information ("Sound set to: " +:+ basename filePath)])
      end
  | _ => Some (h, [])
  end.

(** [err.message] of a rejection. *)
Definition messageOf (e : JsError) : string :=
  match e with
  | Error message => message
  | InvalidUrl => "Invalid URL"
  | TransportError err => err
  | Thrown err => err
  end.

(** A host whose [fs.existsSync] looks at the given disk. *)
Definition onDisk (d : disk) (h : Host) : Host :=
  {| enabled := enabled h; selectedSound := selectedSound h;
     volumeSetting := volumeSetting h; isAbsolute := isAbsolute h;
     existsSync := fun p => bool_decide (is_Some (d !! p));
     builtInDir := builtInDir h; builtInSounds := builtInSounds h |}.

End SfxManager.

(** ** Character helpers for the webview and the sound library *)

Module JsText.

(** [s.replace(/c/g, by)] for a single character [c] and a replacement
    without dollar patterns. *)
Fixpoint replaceAll (c : ascii) (by_ : string) (s : string) : string :=
  match s with
  | EmptyString => EmptyString
  | String a rest =>
      if Ascii.eqb a c then by_ +:+ replaceAll c by_ rest
      else String a (replaceAll c by_ rest)
  end.

(** [s.includes(c)] for a single character. *)
Fixpoint contains (c : ascii) (s : string) : bool :=
  match s with
  | EmptyString => false
  | String a rest => Ascii.eqb a c || contains c rest
  end.

Definition between (lo hi : nat) (c : ascii) : bool :=
  (lo <=? nat_of_ascii c)%nat && (nat_of_ascii c <=? hi)%nat.

Definition isUpper (c : ascii) : bool := between 65 90 c.
Definition isLower (c : ascii) : bool := between 97 122 c.
Definition isDigit (c : ascii) : bool := between 48 57 c.

(** The class [\w] of a regular expression without the unicode flag. *)
Definition isWord (c : ascii) : bool :=
  isUpper c || isLower c || isDigit c || Ascii.eqb c "_"%char.

(** [c.toUpperCase()] and [c.toLowerCase()] on the ASCII range. *)
Definition toUpper (c : ascii) : ascii :=
  if isLower c then ascii_of_nat (nat_of_ascii c - 32) else c.

Definition toLower (c : ascii) : ascii :=
  if isUpper c then ascii_of_nat (nat_of_ascii c + 32) else c.

Fixpoint toLowerCase (s : string) : string :=
  match s with
  | EmptyString => EmptyString
  | String a rest => String (toLower a) (toLowerCase rest)
  end.

(** [s.charAt(i)]: the empty string outside the string. *)
Definition charAt (s : string) (i : Z) : string :=
  if i <? 0 then EmptyString
  else match String.get (Z.to_nat i) s with
       | Some c => String c EmptyString
       | None => EmptyString
       end.

End JsText.

(** ** generateSounds.ts *)

Module GenerateSounds.
Import JsText.

Definition AUDIO_EXTENSIONS : list string := [".mp3"; ".wav"; ".ogg"].

(** The musical note U+1F3B5, in UTF-8. *)
Definition DEFAULT_EMOJI : string :=
  String (ascii_of_nat 240) (String (ascii_of_nat 159)
    (String (ascii_of_nat 142) (String (ascii_of_nat 181) EmptyString))).

(** One value of [config.json]: [{ emoji?: string; label?: string }]. *)
Record ConfigEntry := { emojiOf : option string; labelOf : option string }.

(** The file system and the library functions the scan uses.
    [readJson p] is [JSON.parse(fs.readFileSync(p, 'utf-8'))], [None]
    when it throws. *)
Record Node := {
  existsSync : string -> bool;
  readdirSync : string -> list string;
  readJson : string -> option (gmap string ConfigEntry);
  extname : string -> string;
  basename : string -> string -> string;
  localeCompare : string -> string -> Z
}.

Definition loadConfig (node : Node) (soundsDir : string) : gmap string ConfigEntry :=
  let configPath := SfxManager.join soundsDir "config.json" in
  if existsSync node configPath then
    match readJson node configPath with
    | Some config => config
    | None => ∅
    end
  else ∅.

(** [name.replace(/[-_]/g, ' ')] *)
Fixpoint spaceOut (s : string) : string :=
  match s with
  | EmptyString => EmptyString
  | String c rest =>
      String (if Ascii.eqb c "-"%char || Ascii.eqb c "_"%char then " "%char else c)
             (spaceOut rest)
  end.

(** [s.replace(/\b\w/g, c => c.toUpperCase())]: a word character is
    put in upper case when no word character comes right before it. *)
Fixpoint capitalize (afterWord : bool) (s : string) : string :=
  match s with
  | EmptyString => EmptyString
  | String c rest =>
      String (if isWord c && negb afterWord then toUpper c else c)
             (capitalize (isWord c) rest)
  end.

Definition defaultLabel (name : string) : string := capitalize false (spaceOut name).

(** Neither a hyphen nor an underscore occurs in the string. *)
Definition plain (s : string) : Prop :=
  contains "-"%char s = false /\ contains "_"%char s = false.

(** [Array.prototype.sort(compare)]: a stable sort; [x] goes after [y]
    when [compare(x, y) > 0]. *)
Fixpoint insertSorted {A : Type} (compare : A -> A -> Z) (x : A) (l : list A) : list A :=
  match l with
  | [] => [x]
  | y :: rest =>
      if 0 <? compare x y then y :: insertSorted compare x rest else x :: y :: rest
  end.

Fixpoint sortBy {A : Type} (compare : A -> A -> Z) (l : list A) : list A :=
  match l with
  | [] => []
  | x :: rest => insertSorted compare x (sortBy compare rest)
  end.

Definition isAudio (node : Node) (f : string) : bool :=
  existsb (String.eqb (toLowerCase (extname node f))) AUDIO_EXTENSIONS.

Definition entryOf (node : Node) (config : gmap string ConfigEntry) (f : string)
    : SfxManager.SoundEntry :=
  let name := basename node f (extname node f) in
  let entry := config !! name in
  {| SfxManager.name := name;
     SfxManager.label :=
       match entry ≫= labelOf with Some l => l | None => defaultLabel name end;
     SfxManager.file := f;
     SfxManager.emoji :=
       match entry ≫= emojiOf with Some e => e | None => DEFAULT_EMOJI end |}.

(** The module variables [cachedSounds] and [cachedDir]. *)
Record Cache := {
  cachedSounds : option (list SfxManager.SoundEntry);
  cachedDir : option string
}.

Definition noCache : Cache := {| cachedSounds := None; cachedDir := None |}.

(** What a scan computes when it does read the directory. *)
Definition readSounds (node : Node) (soundsDir : string) : list SfxManager.SoundEntry :=
  sortBy (fun a b => localeCompare node (SfxManager.label a) (SfxManager.label b))
    (map (entryOf node (loadConfig node soundsDir))
       (List.filter (isAudio node) (readdirSync node soundsDir))).

Definition scanSoundsDir (node : Node) (soundsDir : string) (c : Cache)
    : list SfxManager.SoundEntry * Cache :=
  match cachedDir c, cachedSounds c with
  | Some d, Some sounds =>
      if String.eqb d soundsDir then (sounds, c)
      else if negb (existsSync node soundsDir)
      then ([], {| cachedSounds := Some []; cachedDir := Some soundsDir |})
      else (readSounds node soundsDir,
            {| cachedSounds := Some (readSounds node soundsDir);
               cachedDir := Some soundsDir |})
  | _, _ =>
      if negb (existsSync node soundsDir)
      then ([], {| cachedSounds := Some []; cachedDir := Some soundsDir |})
      else (readSounds node soundsDir,
            {| cachedSounds := Some (readSounds node soundsDir);
               cachedDir := Some soundsDir |})
  end.

Definition refreshCache (c : Cache) : Cache := noCache.

(** The lookups by name, on the scanned entries. *)
Definition findSound (sounds : list SfxManager.SoundEntry) (n : string)
    : option SfxManager.SoundEntry :=
  List.find (fun s => String.eqb (SfxManager.name s) n) sounds.

Definition getBuiltInSoundEmoji (sounds : list SfxManager.SoundEntry) (n : string) : string :=
  match findSound sounds n with Some s => SfxManager.emoji s | None => DEFAULT_EMOJI end.

Definition getBuiltInSoundLabel (sounds : list SfxManager.SoundEntry) (n : string) : string :=
  match findSound sounds n with Some s => SfxManager.label s | None => n end.

End GenerateSounds.

(** ** sfxLibrary.ts and sfxSidebarProvider.ts: shared helpers *)

Module Webview.
Import JsText.

Definition quot : ascii := Ascii.ascii_of_nat 34.

(** [escapeHtml(str)]: four replacements, in this order. *)
Definition escapeHtml (str : string) : string :=
  replaceAll quot "&quot;"
    (replaceAll ">"%char "&gt;"
       (replaceAll "<"%char "&lt;"
          (replaceAll "&"%char "&amp;" str))).

(** What one character becomes when a string is escaped. *)
Definition escapeChar (c : ascii) : string :=
  if Ascii.eqb c "&"%char then "&amp;"
  else if Ascii.eqb c "<"%char then "&lt;"
  else if Ascii.eqb c ">"%char then "&gt;"
  else if Ascii.eqb c quot then "&quot;"
  else String c EmptyString.

Definition special (c : ascii) : bool :=
  Ascii.eqb c "&"%char || Ascii.eqb c "<"%char || Ascii.eqb c ">"%char || Ascii.eqb c quot.

Definition chars : string :=
  "ABCDEFGHIJKLMNOPQRSTUVWXYZabcdefghijklmnopqrstuvwxyz0123456789".

(** JavaScript numbers are IEEE 754 binary64 values. *)
Definition prec : Z := 53.
Definition emax : Z := 1024.
Definition number := SpecFloat.spec_float.

(** An integer as a number. *)
Definition numberOf (z : Z) : number := SpecFloat.binary_normalize prec emax z 0 false.

Definition one : number := numberOf 1.

(** [x * y], rounded to the nearest number, ties to even. *)
Definition mul (x y : number) : number := SpecFloat.SFmul prec emax x y.

(** What [Math.random()] may return: a number [x] with [0 <= x < 1]. *)
Definition unitInterval (x : number) : bool :=
  SpecFloat.valid_binary prec emax x
  && SpecFloat.SFleb (SpecFloat.S754_zero false) x
  && SpecFloat.SFltb x one.

(** The position [charAt] reads when it is given [Math.floor(x)]: 0
    for NaN, none for an infinity. *)
Definition floorIndex (x : number) : option Z :=
  match x with
  | SpecFloat.S754_zero _ => Some 0
  | SpecFloat.S754_nan => Some 0
  | SpecFloat.S754_infinity _ => None
  | SpecFloat.S754_finite s m e => Some (Z.shiftl (SpecFloat.cond_Zopp s (Zpos m)) e)
  end.

(** The shifter of the rounding after [j] bits of [M] went out: the
    quotient is left, and the round bit is set only when at least half
    a unit went out. *)
Definition shifted (M : Z) (j : Z) (mrs : SpecFloat.shr_record) : Prop :=
  0 <= j /\ SpecFloat.shr_m mrs = M / 2 ^ j /\
  (SpecFloat.shr_r mrs = true -> 2 ^ j <= 2 * (M mod 2 ^ j)).

Definition charAtFloor (s : string) (x : number) : string :=
  match floorIndex x with
  | Some i => charAt s i
  | None => EmptyString
  end.

(** [getNonce()]; [random i] is what the [i]-th call of
    [Math.random()] returns. *)
Fixpoint nonceLoop (random : nat -> number) (i steps : nat) (text : string) : string :=
  match steps with
  | O => text
  | S steps' =>
      nonceLoop random (S i) steps'
        (text +:+ charAtFloor chars
                    (mul (random i) (numberOf (Z.of_nat (String.length chars)))))
  end.

Definition getNonce (random : nat -> number) : string := nonceLoop random 0 32 "".

(** Every character of the string is a letter or a digit. *)
Fixpoint alphanumeric (s : string) : bool :=
  match s with
  | EmptyString => true
  | String c rest => (isUpper c || isLower c || isDigit c) && alphanumeric rest
  end.

(** [resolveSoundPath(name)] of the panel and of the sidebar. *)
Definition resolveSoundPath (h : SfxManager.Host) (n : string) : option string :=
  if SfxManager.isAbsolute h n then Some n
  else
    match SfxManager.getBuiltInSoundFile (SfxManager.builtInSounds h) n with
    | Some f =>
        if Js.truthy f then Some (SfxManager.join (SfxManager.builtInDir h) f) else None
    | None => None
    end.

(** The messages the webview script posts. *)
Inductive message :=
| Preview (soundName : string)
| Select (soundName : string)
| SelectFile
| DownloadUrl (url : string)
| Toggle.

(** What the handlers reach outside the manager: the download
    surroundings (with the fuel that bounds the model of the download),
    the answer of the open dialog, [fs.promises.stat] and
    [path.basename]. *)
Record Outside := {
  world : SfxManager.World;
  fuel : nat;
  picked : option (list string);
  stat : string -> option Z;
  basename : string -> string
}.

(** What handling one message does: the settings afterwards, the
    messages shown, the call to [playSound] and the file and network
    calls. *)
Record handled := {
  host : SfxManager.Host;
  notices : list SfxManager.notice;
  played : option AudioPlayer.PlaybackOptions;
  calls : list SfxManager.io
}.

Definition quiet (h : SfxManager.Host) : handled :=
  {| host := h; notices := []; played := None; calls := [] |}.

(** The [onDidReceiveMessage] handler; [None] when the handler's
    promise is rejected. *)
Definition onDidReceiveMessage (out : Outside) (msg : message) (h : SfxManager.Host)
    : option handled :=
  match msg with
  | Preview soundName =>
      match resolveSoundPath h soundName with
      | Some soundPath =>
          if Js.truthy soundPath then
            Some {| host := h; notices := [];
                    played := Some {| AudioPlayer.filePath := soundPath;
                                      AudioPlayer.volume := SfxManager.volumeSetting h |};
                    calls := [] |}
          else Some (quiet h)
      | None => Some (quiet h)
      end
  | Select soundName =>
      Some {| host := SfxManager.selectSound soundName h;
              notices := [SfxManager.Information
                            ("Sound set to: "
                               +:+ GenerateSounds.getBuiltInSoundLabel
                                     (SfxManager.builtInSounds h) soundName)];
              played := None; calls := [] |}
  | SelectFile =>
      match SfxManager.selectFileFromSystem (picked out) (stat out) (basename out) h with
      | Some (h', shown) => Some {| host := h'; notices := shown; played := None; calls := [] |}
      | None => None
      end
  | DownloadUrl url =>
      match SfxManager.downloadFromUrl (world out) (fuel out) 0 url with
      | (SfxManager.Resolved filePath, log) =>
          Some {| host := SfxManager.selectSound filePath h;
                  notices := [SfxManager.Information "Sound downloaded and selected!"];
                  played := None; calls := log |}
      | (SfxManager.Rejected err, log) =>
          Some {| host := h;
                  notices := [SfxManager.ErrorMessage
                                ("Download failed: " +:+ SfxManager.messageOf err)];
                  played := None; calls := log |}
      | (SfxManager.Pending, log) =>
          Some {| host := h; notices := []; played := None; calls := log |}
      end
  | Toggle =>
      let '(h', shown) := SfxManager.toggle h in
      Some {| host := h'; notices := [shown]; played := None; calls := [] |}
  end.

End Webview.

(** ** extension.ts *)

Module Extension.

(** What has happened so far: the manager's state and the calls to
    [playSound], with their times. *)
Abbreviation log := (SfxManager.State * list (Z * AudioPlayer.PlaybackOptions))%type.

(** The callback given to the monitor: [() => sfxManager.handleError()]. *)
Definition alert (h : SfxManager.Host) (now : Z) (s : log) : log :=
  let '(st, played) := SfxManager.handleError h now (fst s) in
  (st, snd s ++ match played with Some o => [(now, o)] | None => [] end).

(** One shell execution ending at time [now]. *)
Definition onShellExecutionEnd (h : SfxManager.Host) (now : Z)
    (event : TerminalMonitor.TerminalShellExecutionEndEvent) (s : log) : log :=
  TerminalMonitor.listener (alert h now) event s.

Fixpoint session (h : SfxManager.Host)
    (events : list (Z * TerminalMonitor.TerminalShellExecutionEndEvent)) (s : log) : log :=
  match events with
  | [] => s
  | (now, event) :: rest => session h rest (onShellExecutionEnd h now event s)
  end.

(** The times of the executions that ended with a known, non-zero code. *)
Definition failures (events : list (Z * TerminalMonitor.TerminalShellExecutionEndEvent))
    : list Z :=
  omap (fun e => match TerminalMonitor.exitCode (snd e) with
                 | Some code => if code =? 0 then None else Some (fst e)
                 | None => None
                 end) events.

End Extension.
(** ** Concrete surroundings for the examples *)

Module Demo.
Import AudioPlayer SfxManager.

(** Stand-ins for [new URL(url).pathname] and [path.extname] that
    agree with Node on plain URLs of the form scheme://host/path: the
    path starts at the first slash after the host, the extension at the
    last dot of the last segment. *)
Definition pathnameOf (url : string) : option string :=
  match String.index 0 "://" url with
  | None => None
  | Some i =>
      let rest := String.substring (i + 3) (String.length url - (i + 3)) url in
      match String.index 0 "/" rest with
      | None => Some "/"
      | Some j => Some (String.substring j (String.length rest - j) rest)
      end
  end.

Fixpoint hasSlash (s : string) : bool :=
  match s with
  | EmptyString => false
  | String c rest => Ascii.eqb c "/"%char || hasSlash rest
  end.

Fixpoint lastExtension (s : string) : option string :=
  match s with
  | EmptyString => None
  | String c rest =>
      match lastExtension rest with
      | Some e => Some e
      | None => if Ascii.eqb c "."%char && negb (hasSlash rest) then Some s else None
      end
  end.

Definition extnameOf (path : string) : string :=
  match lastExtension path with Some e => e | None => "" end.

(** A stand-in for [new URL(url).protocol]: the scheme in lower case
    with its colon. *)
Definition protocolOf (url : string) : string :=
  match String.index 0 "://" url with
  | None => EmptyString
  | Some i => JsText.toLowerCase (String.substring 0 i url) +:+ ":"
  end.

Definition world (srv : nat -> string -> reply) (clk : nat -> Z) : World :=
  {| pathname := pathnameOf; protocol := protocolOf; extname := extnameOf;
     downloadDir := "/store/sounds"; network := srv; clock := clk |}.

Definition ticking (n : nat) : Z := 1700000000000 + Z.of_nat n.

(** A server that always redirects to the same URL. *)
Definition loopUrl : string := "http://loop.example/a.mp3".
Definition loopWorld : World :=
  world (fun _ _ => Response 302 (Some loopUrl) []) ticking.

(** A server that redirects six times and then serves one byte. *)
Definition sixHops : World :=
  world (fun n _ => if (n <? 6)%nat then Response 302 (Some loopUrl) []
                    else Response 200 None [[Byte.x2a]]) ticking.

(** A server that serves three bytes in two chunks, whatever the URL. *)
Definition plainServer : World :=
  world (fun _ _ => Response 200 None [[Byte.x01; Byte.x02]; [Byte.x03]]) ticking.

(** A server that answers 404. *)
Definition missing : World :=
  world (fun _ _ => Response 404 None []) ticking.

(** A server that redirects once and then answers 404. *)
Definition movedAway : World :=
  world (fun n _ => if (n <? 1)%nat then Response 302 (Some "http://b.example/gone.mp3") []
                    else Response 404 None []) ticking.

(** A server whose 200 response loses its connection after two bytes. *)
Definition cutOff : World :=
  world (fun _ _ => Interrupted 200 None [[Byte.x01; Byte.x02]]) ticking.

Definition host : Host :=
  {| enabled := true; selectedSound := "faah"; volumeSetting := 80;
     isAbsolute := fun _ => false; existsSync := fun _ => true;
     builtInDir := "/ext/media/sounds";
     builtInSounds := [ {| name := "faah"; label := "Faah"; file := "faah.mp3"; emoji := "" |} ] |}.

(** paplay is not installed, aplay and afplay play for five seconds,
    every other command hangs. *)
Definition desktop : system := fun cmd _ =>
  if String.eqb cmd "paplay" then CannotStart
  else if String.eqb cmd "aplay" || String.eqb cmd "afplay" then ExitsAfter 5000 0
  else NeverExits.

Definition request : PlaybackOptions := {| filePath := "/ext/media/sounds/faah.mp3"; volume := 80 |}.

(** Numbers [Math.random()] can return: 5665818886046753 / 2^53 and
    the largest number below 1. *)
Definition draws (j : nat) : Webview.number :=
  if Nat.even j then SpecFloat.S754_finite false 5665818886046753 (-53)
  else SpecFloat.S754_finite false 9007199254740991 (-53).

End Demo.
(** ** More concrete surroundings for the examples *)

Module Samples.
Import SfxManager.

(** [path.basename(f, ext)] on a plain file name: the name without the
    extension when it ends with it. *)
Definition basenameOf (f ext : string) : string :=
  if Js.truthy ext && Js.endsWith f ext
  then String.substring 0 (String.length f - String.length ext) f
  else f.

(** [path.basename(p)] on a path with forward slashes: what follows
    the last slash. *)
Fixpoint lastSegment (p : string) : string :=
  match p with
  | EmptyString => EmptyString
  | String c rest =>
      if Demo.hasSlash rest then lastSegment rest
      else if Ascii.eqb c "/"%char then rest else p
  end.

(** A stand-in for [localeCompare]: byte order. *)
Definition compareBytes (a b : string) : Z :=
  match String.compare a b with
  | Lt => -1
  | Eq => 0
  | Gt => 1
  end.

(** A sounds directory with two sounds, a text file and no
    [config.json]. *)
Definition soundsDir : string := "/ext/media/sounds".

Definition node : GenerateSounds.Node :=
  {| GenerateSounds.existsSync := fun p => String.eqb p soundsDir;
     GenerateSounds.readdirSync := fun _ => ["mario-death.WAV"; "notes.txt"; "faah.mp3"];
     GenerateSounds.readJson := fun _ => None;
     GenerateSounds.extname := Demo.extnameOf;
     GenerateSounds.basename := basenameOf;
     GenerateSounds.localeCompare := compareBytes |}.

(** A host with nothing selected. *)
Definition silentHost : Host := selectSound "" Demo.host.

(** A server that redirects the first request to [target] and then
    serves one byte. *)
Definition hop (target : string) : World :=
  Demo.world (fun n _ => if (n <? 1)%nat then Response 301 (Some target) []
                         else Response 200 None [[Byte.x2a]]) Demo.ticking.

(** A host for which paths that start with a slash are absolute. *)
Definition unixHost : Host :=
  {| enabled := true; selectedSound := "faah"; volumeSetting := 80;
     isAbsolute := fun p => match p with String "/"%char _ => true | _ => false end;
     existsSync := fun _ => true;
     builtInDir := "/ext/media/sounds";
     builtInSounds := builtInSounds Demo.host |}.

Definition outside : Webview.Outside :=
  {| Webview.world := Demo.plainServer; Webview.fuel := 3;
     Webview.picked := Some ["/home/me/boom.wav"];
     Webview.stat := fun _ => Some 1024;
     Webview.basename := lastSegment |}.

End Samples.
Module AudioPlayerFacts.
Import AudioPlayer.

Lemma due_shift (now d : Z) (ef : bool) :
  (now + d <? now + MAX_PLAYBACK_MS) || ((now + d =? now + MAX_PLAYBACK_MS) && ef)
  = exitsInTime ef d.
Proof.
  unfold exitsInTime. f_equal; [|f_equal].
  - destruct (Z.ltb_spec (now + d) (now + MAX_PLAYBACK_MS)), (Z.ltb_spec d MAX_PLAYBACK_MS);
      reflexivity || lia.
  - destruct (Z.eqb_spec (now + d) (now + MAX_PLAYBACK_MS)), (Z.eqb_spec d MAX_PLAYBACK_MS);
      reflexivity || lia.
Qed.

(** What [supervised] computes, by behaviour of the command. *)
Lemma supervised_unfold sys ef now cmd args :
  supervised sys ef now cmd args =
  match sys cmd args with
  | CannotStart =>
      {| spawnedAt := now; started := false; running := false; naturalExit := None;
         killed := false; timer := None; exitListener := true;
         history := [(now + MAX_PLAYBACK_MS, TimerFired)] |}
  | ExitsAfter d code =>
      if exitsInTime ef d then
        {| spawnedAt := now; started := true; running := false; naturalExit := None;
           killed := false; timer := None; exitListener := true;
           history := [(now + d, Exit (Some code)); (now + d, TimerCleared)] |}
      else
        {| spawnedAt := now; started := true; running := false; naturalExit := None;
           killed := true; timer := None; exitListener := true;
           history := [(now + MAX_PLAYBACK_MS, TimerFired); (now + MAX_PLAYBACK_MS, Kill);
                       (now + MAX_PLAYBACK_MS, Exit None);
                       (now + MAX_PLAYBACK_MS, TimerCleared)] |}
  | NeverExits =>
      {| spawnedAt := now; started := true; running := false; naturalExit := None;
         killed := true; timer := None; exitListener := true;
         history := [(now + MAX_PLAYBACK_MS, TimerFired); (now + MAX_PLAYBACK_MS, Kill);
                     (now + MAX_PLAYBACK_MS, Exit None);
                     (now + MAX_PLAYBACK_MS, TimerCleared)] |}
  end.
Proof.
  unfold supervised, lifetime, settle, step, killAfterTimeout, execFile.
  destruct (sys cmd args) as [|d code|]; cbn; [reflexivity| |reflexivity].
  rewrite due_shift. destruct (exitsInTime ef d); reflexivity.
Qed.

Lemma supervised_quiescent sys ef now cmd args :
  step ef (supervised sys ef now cmd args) = None.
Proof.
  rewrite supervised_unfold.
  destruct (sys cmd args) as [|d code|]; [reflexivity| |reflexivity].
  destruct (exitsInTime ef d); reflexivity.
Qed.

Lemma failed_supervised sys ef now cmd args :
  failed (supervised sys ef now cmd args) = fails ef (sys cmd args).
Proof.
  rewrite supervised_unfold. unfold fails.
  destruct (sys cmd args) as [|d code|]; [reflexivity| |reflexivity].
  destruct (exitsInTime ef d); [|reflexivity].
  unfold failed, completion; cbn. destruct (code =? 0); reflexivity.
Qed.

Lemma tryNext_chain sys ef candidates index now :
  (length (tryNext sys ef candidates index now) <= length candidates - index)%nat /\
  ((index < length candidates)%nat -> (1 <= length (tryNext sys ef candidates index now))%nat) /\
  forall i e, tryNext sys ef candidates index now !! i = Some e ->
    exists cmd args t,
      e = Spawned cmd args (supervised sys ef t cmd args) /\
      candidates !! (index + i)%nat = Some (cmd, args) /\
      (is_Some (tryNext sys ef candidates index now !! S i) <->
         failed (supervised sys ef t cmd args) = true /\
         (S (index + i) < length candidates)%nat).
Proof.
  funelim (tryNext sys ef candidates index now).
  all: try clear Heqcall.
  - split; [simpl; lia|]. split.
    + intros Hlt. pose proof (proj1 (lookup_ge_None candidates index) e). lia.
    + intros i e0 Hi. rewrite lookup_nil in Hi. discriminate.
  - pose proof (lookup_lt_Some _ _ _ Hlookup) as Hlt.
    destruct H as (Hlen & Hne & Hall).
    split; [simpl; lia|]. split; [simpl; lia|].
    intros [|i] e0 Hi; simpl in Hi.
    + injection Hi as <-. exists cmd, args, now.
      split; [reflexivity|]. split; [rewrite Nat.add_0_r; exact Hlookup|].
      rewrite Nat.add_0_r. simpl. split.
      * intros Hsome. apply lookup_lt_is_Some in Hsome.
        split; [unfold failed; rewrite e; reflexivity | lia].
      * intros [_ Hlt']. apply lookup_lt_is_Some. specialize (Hne Hlt'). lia.
    + destruct (Hall i e0 Hi) as (c & a & t0 & -> & Hc & Hiff).
      exists c, a, t0. split; [reflexivity|].
      replace (index + S i)%nat with (S index + i)%nat by lia.
      split; [exact Hc|]. simpl. exact Hiff.
  - pose proof (lookup_lt_Some _ _ _ Hlookup) as Hlt.
    split; [simpl; lia|]. split; [simpl; lia|].
    intros [|i] e0 Hi; simpl in Hi; [|rewrite lookup_nil in Hi; discriminate].
    injection Hi as <-. exists cmd, args, now.
    split; [reflexivity|]. split; [rewrite Nat.add_0_r; exact Hlookup|].
    simpl. split.
    + intros Hsome. destruct Hsome as [x Hx]. discriminate.
    + intros [Hf _]. unfold failed in Hf. rewrite e in Hf. discriminate.
  - pose proof (lookup_lt_Some _ _ _ Hlookup) as Hlt.
    split; [simpl; lia|]. split; [simpl; lia|].
    intros [|i] e0 Hi; simpl in Hi; [|rewrite lookup_nil in Hi; discriminate].
    injection Hi as <-. exists cmd, args, now.
    split; [reflexivity|]. split; [rewrite Nat.add_0_r; exact Hlookup|].
    simpl. split.
    + intros Hsome. destruct Hsome as [x Hx]. discriminate.
    + intros [Hf _]. unfold failed in Hf. rewrite e in Hf. discriminate.
Qed.

Lemma tryNext_supervised sys ef candidates index now cmd args proc :
  In (Spawned cmd args proc) (tryNext sys ef candidates index now) ->
  exists t, proc = supervised sys ef t cmd args.
Proof.
  intros Hin. apply list_elem_of_In, list_elem_of_lookup in Hin as [i Hi].
  destruct (tryNext_chain sys ef candidates index now) as (_ & _ & Hall).
  destruct (Hall i _ Hi) as (c & a & t & Heq & _).
  injection Heq as -> -> ->. exists t. reflexivity.
Qed.

Lemma logError_no_spawn err cmd args proc :
  ~ In (Spawned cmd args proc) (logError err).
Proof.
  destruct err as [[t [|]]|]; simpl; intros H; [destruct H as [H|[]]; discriminate|tauto..].
Qed.

(** Every process the engine spawns went through [killAfterTimeout]. *)
Lemma playSound_supervised platform sys ef now options cmd args proc :
  In (Spawned cmd args proc) (playSound platform sys ef now options) ->
  exists t, proc = supervised sys ef t cmd args.
Proof.
  unfold playSound, tryLinuxPlayers, playWindows.
  destruct (String.eqb platform "darwin").
  { intros [H|H]; [injection H as <- <- <-; eauto | destruct (logError_no_spawn _ _ _ _ H)]. }
  destruct (String.eqb platform "linux"); [apply tryNext_supervised|].
  destruct (String.eqb platform "win32"); [|intros []].
  destruct (Js.endsWith (filePath options) ".wav");
    (intros [H|H]; [injection H as <- <- <-; eauto | destruct (logError_no_spawn _ _ _ _ H)]).
Qed.

Lemma tryLinuxPlayers_chain sys exitFirst now path vol :
  let tr := tryLinuxPlayers sys exitFirst now path vol in
  (1 <= length tr <= 3)%nat /\
  forall i e, tr !! i = Some e ->
    exists cmd args proc,
      e = Spawned cmd args proc /\
      players path vol !! i = Some (cmd, args) /\
      (is_Some (tr !! S i) <-> fails exitFirst (sys cmd args) = true /\ (S i < 3)%nat).
Proof.
  intros tr.
  destruct (tryNext_chain sys exitFirst (players path vol) 0 now) as (Hlen & Hne & Hall).
  fold (tryLinuxPlayers sys exitFirst now path vol) in Hlen, Hne, Hall. fold tr in Hlen, Hne, Hall.
  change (length (players path vol)) with 3%nat in Hlen, Hne, Hall.
  split; [lia|].
  intros i e Hi. destruct (Hall i e Hi) as (cmd & args & t & -> & Hc & Hiff).
  exists cmd, args, (supervised sys exitFirst t cmd args).
  split; [reflexivity|]. split; [exact Hc|].
  rewrite <- failed_supervised with (now := t). exact Hiff.
Qed.

(** C4. On Linux [playSound] walks the three candidates paplay, aplay,
    mpv in this order: everything it does is spawning candidates,
    candidate 0 is always tried, candidate [i + 1] is tried exactly when
    candidate [i] was tried and could not be started or ended with an
    error, nothing is tried after a success or after the third
    candidate, and nothing is written to the console. *)
Theorem linux_fallback_chain sys exitFirst now options :
  let tr := playSound "linux" sys exitFirst now options in
  let candidates := players (filePath options) (volume options) in
  map fst candidates = ["paplay"; "aplay"; "mpv"] /\
  (1 <= length tr <= 3)%nat /\
  forall i e, tr !! i = Some e ->
    exists cmd args proc,
      e = Spawned cmd args proc /\
      candidates !! i = Some (cmd, args) /\
      (is_Some (tr !! S i) <-> fails exitFirst (sys cmd args) = true /\ (S i < 3)%nat).
Proof.
  intros tr candidates. split; [reflexivity|].
  change tr with (tryLinuxPlayers sys exitFirst now (filePath options) (volume options)).
  exact (tryLinuxPlayers_chain sys exitFirst now (filePath options) (volume options)).
Qed.

(** C5. Every process spawned by [playSound] carries the kill timer:
    one that ends by itself less than 20 000 ms after its spawn is never
    killed and its timer is cleared at that exit; one that never exits,
    or would exit only later, has the timer fire 20 000 ms after the
    spawn, is killed then and exits by the signal. *)
Theorem kill_timer platform sys exitFirst now options cmd args proc :
  In (Spawned cmd args proc) (playSound platform sys exitFirst now options) ->
  let s := spawnedAt proc in
  (forall d code, sys cmd args = ExitsAfter d code -> d < MAX_PLAYBACK_MS ->
     killed proc = false /\
     history proc = [(s + d, Exit (Some code)); (s + d, TimerCleared)]) /\
  (sys cmd args = NeverExits \/
   (exists d code, sys cmd args = ExitsAfter d code /\ MAX_PLAYBACK_MS < d) ->
     killed proc = true /\
     history proc = [(s + MAX_PLAYBACK_MS, TimerFired); (s + MAX_PLAYBACK_MS, Kill);
                     (s + MAX_PLAYBACK_MS, Exit None);
                     (s + MAX_PLAYBACK_MS, TimerCleared)]).
Proof.
  intros Hin. destruct (playSound_supervised _ _ _ _ _ _ _ _ Hin) as [t ->].
  rewrite supervised_unfold. split.
  - intros d code Hb Hd. rewrite Hb.
    assert (exitsInTime exitFirst d = true) as ->.
    { unfold exitsInTime. apply orb_true_iff. left. apply Z.ltb_lt. exact Hd. }
    split; reflexivity.
  - intros [Hb|(d & code & Hb & Hd)]; rewrite Hb; [split; reflexivity|].
    assert (exitsInTime exitFirst d = false) as ->.
    { unfold exitsInTime. apply orb_false_iff. split.
      - apply Z.ltb_ge. lia.
      - apply andb_false_iff. left. apply Z.eqb_neq. lia. }
    split; reflexivity.
Qed.


Lemma afplayVolume_monotone (v1 v2 : Q) :
  (v1 <= v2)%Q -> (afplayVolume v1 <= afplayVolume v2)%Q.
Proof.
  intros H. unfold afplayVolume, Qdiv.
  apply Qmult_le_compat_r; [|discriminate].
  apply Q.max_le_compat_l. exact H.
Qed.

Lemma afplayVolume_nonneg (v : Q) : (0 <= afplayVolume v)%Q.
Proof.
  unfold afplayVolume, Qdiv.
  apply Qmult_le_0_compat; [apply Q.le_max_l | discriminate].
Qed.

Lemma afplayVolume_100 : (afplayVolume 100 == 2)%Q.
Proof. reflexivity. Qed.

Lemma afplayVolume_bounded (v : Q) :
  (0 <= v)%Q -> (v <= 100)%Q -> (0 <= afplayVolume v)%Q /\ (afplayVolume v <= 2)%Q.
Proof.
  intros _ H. split; [apply afplayVolume_nonneg|].
  rewrite <- afplayVolume_100. apply afplayVolume_monotone. exact H.
Qed.

(** C7. On macOS the player is given [Math.max(0, volume) / 50]; for
    volumes between 0 and 100 this number does not decrease when the
    volume grows and lies between 0 and 2. *)
Theorem afplay_volume_argument sys exitFirst now o1 o2 :
  0 <= volume o1 -> volume o1 <= volume o2 -> volume o2 <= 100 ->
  let x1 := afplayVolume (inject_Z (volume o1)) in
  let x2 := afplayVolume (inject_Z (volume o2)) in
  (exists proc rest,
     playSound "darwin" sys exitFirst now o1
     = Spawned "afplay" [Str "-v"; NumStr x1; Str (filePath o1)] proc :: rest) /\
  (x1 == inject_Z (Z.max 0 (volume o1)) / 50)%Q /\
  (x1 <= x2)%Q /\ (0 <= x1)%Q /\ (x2 <= 2)%Q.
Proof.
  intros H0 H12 H100 x1 x2. split; [|split; [|split; [|split]]].
  - unfold playSound; simpl. eauto.
  - unfold x1, afplayVolume. rewrite Z.max_r by exact H0.
    rewrite Q.max_r; [reflexivity|].
    change 0%Q with (inject_Z 0). rewrite <- Zle_Qle. exact H0.
  - apply afplayVolume_monotone. rewrite <- Zle_Qle. exact H12.
  - apply afplayVolume_nonneg.
  - rewrite <- afplayVolume_100. apply afplayVolume_monotone.
    change 100%Q with (inject_Z 100). rewrite <- Zle_Qle. exact H100.
Qed.

(** C10. On Windows the volume does not reach the player: for every
    path, [.wav] or not, two volumes give the same command, the same
    arguments and the same effects. *)
Theorem windows_ignores_volume sys exitFirst now path v1 v2 :
  playSound "win32" sys exitFirst now {| filePath := path; volume := v1 |}
  = playSound "win32" sys exitFirst now {| filePath := path; volume := v2 |} /\
  exists args proc rest,
    playSound "win32" sys exitFirst now {| filePath := path; volume := v1 |}
    = Spawned "powershell" args proc :: rest.
Proof.
  split; [reflexivity|].
  unfold playSound, playWindows; simpl.
  destruct (Js.endsWith path ".wav"); eauto.
Qed.

(** The fallback of the specification's example: paplay is missing,
    aplay plays, mpv is never started. *)
Example fallback_to_aplay :
  map (fun e => match e with Spawned cmd _ _ => cmd | ConsoleError _ => "" end)
      (playSound "linux" Demo.desktop true 1000 Demo.request)
  = ["paplay"; "aplay"].
Proof. vm_compute. reflexivity. Qed.

Lemma linux_fallback_chain_witness :
  is_Some (playSound "linux" Demo.desktop true 1000 Demo.request !! 1%nat) /\
  ~ is_Some (playSound "linux" Demo.desktop true 1000 Demo.request !! 2%nat).
Proof.
  pose proof (linux_fallback_chain Demo.desktop true 1000 Demo.request)
    as (_ & _ & Hall).
  split.
  - destruct (Hall 0%nat _ eq_refl) as (cmd & args & proc & _ & Hc & Hiff).
    injection Hc as <- <-. apply Hiff. split; [reflexivity|lia].
  - destruct (Hall 1%nat _ eq_refl) as (cmd & args & proc & _ & Hc & Hiff).
    injection Hc as <- <-. intros Hsome. apply Hiff in Hsome as [Hf _]. discriminate Hf.
Defined.

Lemma kill_timer_witness :
  history (supervised Demo.desktop true 1000 "afplay"
             [Str "-v"; NumStr (afplayVolume (inject_Z 80)); Str "/ext/media/sounds/faah.mp3"])
  = [(6000, Exit (Some 0)); (6000, TimerCleared)].
Proof.
  refine (proj2 (proj1 (kill_timer "darwin" Demo.desktop true 1000 Demo.request
                          "afplay" _ _ _) 5000 0 _ _)).
  - left. reflexivity.
  - reflexivity.
  - reflexivity.
Defined.

Lemma afplay_volume_argument_witness :
  (afplayVolume (inject_Z 30) <= afplayVolume (inject_Z 80))%Q /\
  (afplayVolume (inject_Z 80) <= 2)%Q.
Proof.
  pose proof (afplay_volume_argument Demo.desktop true 1000
                {| filePath := "/a.mp3"; volume := 30 |} {| filePath := "/a.mp3"; volume := 80 |})
    as H.
  simpl in H. destruct H as (_ & _ & Hle & _ & Hmax); [lia..|].
  split; assumption.
Defined.

End AudioPlayerFacts.

Module TerminalMonitorFacts.
Import TerminalMonitor.

(** C9. The monitor calls its callback exactly when the shell execution
    ended with a known exit code other than 0: with exit code 0 or with
    an undefined exit code the callback is not called. *)
Theorem alert_iff_failed_command {S : Type} (onError : S -> S)
    (event : TerminalShellExecutionEndEvent) (s : S) :
  (failedCommand event -> listener onError event s = onError s) /\
  (~ failedCommand event -> listener onError event s = s) /\
  (listener Datatypes.S event O = 1%nat <-> failedCommand event) /\
  listener onError {| exitCode := Some 0 |} s = s /\
  listener onError {| exitCode := None |} s = s.
Proof.
  unfold listener, failedCommand. destruct event as [[code|]]; simpl.
  - destruct (Z.eqb_spec code 0) as [->|Hne]; simpl.
    + repeat split; try reflexivity.
      * intros (c & Hc & Hnz). congruence.
      * discriminate.
      * intros (c & Hc & Hnz). congruence.
    + repeat split; try reflexivity.
      * intros Hnot. exfalso. apply Hnot. eauto.
      * intros _. eauto.
  - repeat split; try reflexivity.
    + intros (c & Hc & _). discriminate.
    + discriminate.
    + intros (c & Hc & _). discriminate.
Qed.

Lemma alert_iff_failed_command_witness :
  listener S {| exitCode := Some 1 |} O = 1%nat.
Proof.
  apply (proj1 (alert_iff_failed_command S {| exitCode := Some 1 |} O)).
  exists 1. split; [reflexivity|discriminate].
Defined.

End TerminalMonitorFacts.

Module SfxManagerFacts.
Import AudioPlayer SfxManager.

(** *** Debounce *)

Lemma join_truthy dir segment : Js.truthy (join dir segment) = true.
Proof. unfold join. destruct dir; reflexivity. Qed.

Lemma resolveSelectedSound_truthy h p :
  resolveSelectedSound h = Some p -> Js.truthy p = true.
Proof.
  unfold resolveSelectedSound.
  destruct (Js.truthy (selectedSound h)) eqn:Hsel; simpl; [|discriminate].
  destruct (isAbsolute h (selectedSound h)).
  - destruct (existsSync h (selectedSound h)); [|discriminate].
    intros [= <-]. exact Hsel.
  - destruct (getBuiltInSoundFile _ _) as [f|]; [|discriminate].
    destruct (Js.truthy f); [|discriminate].
    destruct (existsSync h _); [|discriminate].
    intros [= <-]. apply join_truthy.
Qed.

(** An alert is accepted when the feature is on and at least
    [DEBOUNCE_MS] have passed; it is dropped, without touching the
    state, when less time has passed. *)
Lemma handleError_accepted h p now st :
  enabled h = true -> resolveSelectedSound h = Some p ->
  DEBOUNCE_MS <= now - lastPlayTime st ->
  handleError h now st
  = ({| lastPlayTime := now |}, Some {| filePath := p; volume := volumeSetting h |}).
Proof.
  intros He Hp Hd. unfold handleError. rewrite He, Hp; simpl.
  rewrite (resolveSelectedSound_truthy _ _ Hp).
  destruct (Z.ltb_spec (now - lastPlayTime st) DEBOUNCE_MS); [lia|reflexivity].
Qed.

Lemma handleError_dropped h now st :
  now - lastPlayTime st < DEBOUNCE_MS -> handleError h now st = (st, None).
Proof.
  intros Hd. unfold handleError. destruct (enabled h); simpl; [|reflexivity].
  destruct (Z.ltb_spec (now - lastPlayTime st) DEBOUNCE_MS); [reflexivity|lia].
Qed.

(** Whatever the host and the clock, a call to [playSound] happens only
    at least [DEBOUNCE_MS] after [lastPlayTime], and moves it. *)
Lemma handleError_played h now st st' o :
  handleError h now st = (st', Some o) ->
  DEBOUNCE_MS <= now - lastPlayTime st /\ lastPlayTime st' = now.
Proof.
  unfold handleError. destruct (enabled h); simpl; [|discriminate].
  destruct (Z.ltb_spec (now - lastPlayTime st) DEBOUNCE_MS); [discriminate|].
  destruct (resolveSelectedSound h) as [p|]; [|discriminate].
  destruct (Js.truthy p); [|discriminate].
  intros [= <- _]. split; [assumption|reflexivity].
Qed.

Lemma handleError_silent h now st st' :
  handleError h now st = (st', None) -> st' = st \/ resolveSelectedSound h = None.
Proof.
  unfold handleError. destruct (enabled h); simpl; [|intros [= <-]; auto].
  destruct (now - lastPlayTime st <? DEBOUNCE_MS); [intros [= <-]; auto|].
  destruct (resolveSelectedSound h) as [p|] eqn:Hp; [|auto].
  rewrite (resolveSelectedSound_truthy _ _ Hp). discriminate.
Qed.

Lemma handleErrors_no_sound h times st :
  resolveSelectedSound h = None -> snd (handleErrors h times st) = [].
Proof.
  intros Hp. revert st. induction times as [|now rest IH]; intros st; [reflexivity|].
  simpl. destruct (handleError h now st) as [st1 played] eqn:Hh.
  specialize (IH st1). destruct (handleErrors h rest st1) as [st2 later].
  simpl in *. subst later. destruct played as [o|]; [|reflexivity].
  unfold handleError in Hh. rewrite Hp in Hh.
  destruct (enabled h); simpl in Hh; [|discriminate].
  destruct (now - lastPlayTime st <? DEBOUNCE_MS); discriminate.
Qed.

Lemma handleErrors_spaced h times st :
  spaced (lastPlayTime st) (map fst (snd (handleErrors h times st))).
Proof.
  revert st. induction times as [|now rest IH]; intros st; [exact I|].
  simpl. destruct (handleError h now st) as [st1 played] eqn:Hh.
  pose proof (IH st1) as IH1.
  pose proof (handleErrors_no_sound h rest st1) as Hnone.
  destruct (handleErrors h rest st1) as [st2 later]. simpl in *.
  destruct played as [o|].
  - apply handleError_played in Hh as [Hd Hl]. rewrite Hl in IH1.
    simpl. split; assumption.
  - apply handleError_silent in Hh as [->|Hp]; [exact IH1|].
    rewrite (Hnone Hp). exact I.
Qed.

Lemma two_alerts h p T gap :
  enabled h = true -> resolveSelectedSound h = Some p -> DEBOUNCE_MS <= T ->
  map fst (snd (handleErrors h [T; T + gap] fresh))
  = if gap <? DEBOUNCE_MS then [T] else [T; T + gap].
Proof.
  intros He Hp HT. simpl.
  rewrite (handleError_accepted h p T fresh He Hp) by (simpl; lia).
  destruct (Z.ltb_spec gap DEBOUNCE_MS).
  - rewrite handleError_dropped by (simpl; lia). reflexivity.
  - rewrite (handleError_accepted h p (T + gap) _ He Hp) by (simpl; lia). reflexivity.
Qed.

(** C3. With the feature on and a sound that resolves, a fresh manager
    whose first alert comes at clock reading [T] (at least 300, as any
    wall clock reads) plays once for alerts at [T] and [T + 200] and
    twice for alerts at [T] and [T + 350]; in every sequence of alerts
    two consecutive calls to [playSound] are at least 300 ms apart. *)
Theorem debounce h p T :
  enabled h = true -> resolveSelectedSound h = Some p -> DEBOUNCE_MS <= T ->
  map fst (snd (handleErrors h [T; T + 200] fresh)) = [T] /\
  map fst (snd (handleErrors h [T; T + 350] fresh)) = [T; T + 350] /\
  (forall gap, gap < DEBOUNCE_MS ->
     map fst (snd (handleErrors h [T; T + gap] fresh)) = [T]) /\
  (forall gap, DEBOUNCE_MS <= gap ->
     map fst (snd (handleErrors h [T; T + gap] fresh)) = [T; T + gap]) /\
  (forall times st, spaced (lastPlayTime st) (map fst (snd (handleErrors h times st)))).
Proof.
  intros He Hp HT. repeat split.
  - rewrite (two_alerts h p T 200 He Hp HT). reflexivity.
  - rewrite (two_alerts h p T 350 He Hp HT). reflexivity.
  - intros gap Hg. rewrite (two_alerts h p T gap He Hp HT).
    destruct (Z.ltb_spec gap DEBOUNCE_MS); [reflexivity|lia].
  - intros gap Hg. rewrite (two_alerts h p T gap He Hp HT).
    destruct (Z.ltb_spec gap DEBOUNCE_MS); [lia|reflexivity].
  - intros times st. apply handleErrors_spaced.
Qed.

Lemma debounce_witness :
  map fst (snd (handleErrors Demo.host [1700000000000; 1700000000200] fresh))
    = [1700000000000] /\
  map fst (snd (handleErrors Demo.host [1700000000000; 1700000000350] fresh))
    = [1700000000000; 1700000000350].
Proof.
  destruct (debounce Demo.host "/ext/media/sounds/faah.mp3" 1700000000000)
    as (H200 & H350 & _).
  - reflexivity.
  - reflexivity.
  - unfold DEBOUNCE_MS. lia.
  - split; [exact H200|exact H350].
Defined.

(** *** The disk under a log of calls *)

Lemma replay_app l1 l2 (d : disk) : replay (l1 ++ l2) d = replay l2 (replay l1 d).
Proof. unfold replay. apply fold_left_app. Qed.

Lemma replay_writes p chunks (d : disk) old :
  d !! p = Some old ->
  replay (map (Write p) chunks) d = <[p := old ++ concat chunks]> d.
Proof.
  revert d old. induction chunks as [|c rest IH]; intros d old Hd; simpl.
  - rewrite app_nil_r. symmetry. apply insert_id. exact Hd.
  - unfold replay in *. simpl. erewrite IH.
    + rewrite app_assoc. apply map_eq. intros q.
      destruct (decide (p = q)) as [<-|Hne].
      * rewrite !lookup_insert_eq. reflexivity.
      * rewrite !lookup_insert_ne by exact Hne. apply lookup_alter_ne. exact Hne.
    + rewrite lookup_alter_eq, Hd. reflexivity.
Qed.

Lemma size_cons c rest : size (c :: rest) = Z.of_nat (length c) + size rest.
Proof. unfold size. simpl. rewrite length_app. lia. Qed.

Lemma size_nonneg body : 0 <= size body.
Proof. unfold size. lia. Qed.


Lemma receive_too_large destPath chunks received :
  received <= MAX_FILE_BYTES ->
  MAX_FILE_BYTES < received + size chunks ->
  exists written,
    receive destPath chunks received
    = (Rejected (Error "File too large (max 5MB)"),
       map (Write destPath) written ++ [DestroyResponse; Close destPath; Unlink destPath]).
Proof.
  revert received. induction chunks as [|c rest IH]; intros received Hle Hbig.
  - unfold size in Hbig. simpl in Hbig. lia.
  - rewrite size_cons in Hbig. simpl.
    destruct (Z.ltb_spec MAX_FILE_BYTES (received + Z.of_nat (length c))).
    + exists []. reflexivity.
    + destruct (IH (received + Z.of_nat (length c))) as [written Hw]; [lia..|].
      rewrite Hw. exists (c :: written). reflexivity.
Qed.

Lemma replay_untouched log (d : disk) q :
  (forall e, e ∈ log -> touches e <> Some q) -> replay log d !! q = d !! q.
Proof.
  revert d. induction log as [|e rest IH]; intros d Hall; [reflexivity|].
  unfold replay in *. simpl. rewrite IH.
  - assert (touches e <> Some q) as He by (apply Hall; left).
    destruct e; simpl in *; try reflexivity.
    + apply lookup_insert_ne. congruence.
    + apply lookup_alter_ne. congruence.
    + apply lookup_delete_ne. congruence.
  - intros e' He'. apply Hall. right. exact He'.
Qed.

Lemma opened_app l1 l2 : opened (l1 ++ l2) = opened l1 ++ opened l2.
Proof. unfold opened. apply omap_app. Qed.

Lemma requests_app l1 l2 : requests (l1 ++ l2) = requests l1 ++ requests l2.
Proof. unfold requests. apply omap_app. Qed.

Lemma opened_writes p chunks : opened (map (Write p) chunks) = [].
Proof. induction chunks; [reflexivity|assumption]. Qed.

(** The two shapes of the log of [receive]. *)
Lemma receive_log destPath chunks received o log :
  receive destPath chunks received = (o, log) ->
  exists written,
    (o = Resolved destPath /\ log = map (Write destPath) written ++ [Close destPath]) \/
    (o = Rejected (Error "File too large (max 5MB)") /\
     log = map (Write destPath) written
             ++ [DestroyResponse; Close destPath; Unlink destPath]).
Proof.
  revert received o log. induction chunks as [|c rest IH]; intros received o log; simpl.
  - intros [= <- <-]. exists []. left. split; reflexivity.
  - destruct (MAX_FILE_BYTES <? received + Z.of_nat (length c)).
    + intros [= <- <-]. exists []. right. split; reflexivity.
    + destruct (receive destPath rest _) as [o' log'] eqn:Hr.
      intros [= <- <-]. destruct (IH _ _ _ Hr) as [written [[-> ->]|[-> ->]]];
        exists (c :: written); [left|right]; split; reflexivity.
Qed.

(** After the calls of one invocation that ends in [Unlink], nothing
    is stored at its destination and the rest of the disk is as before. *)
Lemma replay_discarded dest url written tail (d : disk) :
  (forall e, e ∈ tail -> touches e = None) ->
  replay ([CreateWriteStream dest; HttpGet url] ++ map (Write dest) written
            ++ tail ++ [Unlink dest]) d
  = delete dest d.
Proof.
  intros Htail. rewrite !replay_app.
  change (replay [CreateWriteStream dest; HttpGet url] d) with (<[dest := []]> d).
  rewrite (replay_writes dest written _ []) by apply lookup_insert_eq.
  rewrite insert_insert_eq.
  assert (replay tail (<[dest := [] ++ concat written]> d)
          = <[dest := [] ++ concat written]> d) as ->.
  { generalize (<[dest := [] ++ concat written]> d). clear -Htail.
    induction tail as [|e rest IH]; intros m; [reflexivity|].
    unfold replay in *. simpl. rewrite IH.
    - assert (touches e = None) as He by (apply Htail; left).
      destruct e; simpl in *; congruence.
    - intros e' He'. apply Htail. right. exact He'. }
  unfold replay. simpl. apply delete_insert_eq.
Qed.

Lemma replay_kept dest url body (d : disk) :
  replay ([CreateWriteStream dest; HttpGet url] ++ map (Write dest) body ++ [Close dest]) d
  = <[dest := concat body]> d.
Proof.
  rewrite !replay_app.
  change (replay [CreateWriteStream dest; HttpGet url] d) with (<[dest := []]> d).
  rewrite (replay_writes dest body _ []) by apply lookup_insert_eq.
  rewrite insert_insert_eq. reflexivity.
Qed.

Lemma opened_none tail : (forall e, e ∈ tail -> touches e = None) -> opened tail = [].
Proof.
  induction tail as [|e rest IH]; intros Hall; [reflexivity|].
  assert (touches e = None) as He by (apply Hall; left).
  assert (opened rest = []) as Hrest by (apply IH; intros e' He'; apply Hall; right; exact He').
  destruct e; simpl in He; try discriminate; exact Hrest.
Qed.

Lemma discarded_disk dest url written tail (d : disk) q :
  (forall e, e ∈ tail -> touches e = None) ->
  let log := [CreateWriteStream dest; HttpGet url] ++ map (Write dest) written
               ++ tail ++ [Unlink dest] in
  opened log = [dest] /\
  (q ∉ opened log -> replay log d !! q = d !! q) /\
  (q ∈ opened log -> replay log d !! q = None).
Proof.
  intros Htail log.
  assert (opened log = [dest]) as Ho.
  { unfold log. rewrite !opened_app, opened_writes, (opened_none tail Htail). reflexivity. }
  unfold log in *. rewrite Ho, (replay_discarded dest url written tail d Htail).
  split; [reflexivity|]. split; intros Hq.
  - apply lookup_delete_ne. intros ->. apply Hq. left.
  - apply list_elem_of_singleton in Hq. subst q. apply lookup_delete_eq.
Qed.

Lemma close_untouching dest e : e ∈ [Close dest] -> touches e = None.
Proof. intros He. apply list_elem_of_singleton in He. subst e. reflexivity. Qed.

Lemma destroy_close_untouching dest e :
  e ∈ [DestroyResponse; Close dest] -> touches e = None.
Proof.
  intros He. apply elem_of_cons in He as [->|He]; [reflexivity|].
  apply list_elem_of_singleton in He. subst e. reflexivity.
Qed.

(** *** The fetcher *)



(** A reply that is a failure by itself rejects with its error and
    leaves the disk as it was, minus the destination path. *)
Lemma download_failure w fuel n url path e (d : disk) :
  pathname w url = Some path ->
  failureOf (server w n url) = Some e ->
  exists log,
    downloadFromUrl w (S fuel) n url = (Rejected e, log) /\
    replay log d = delete (destPathOf w n path) d.
Proof.
  intros Hp Hf. simpl. rewrite Hp. set (dest := destPathOf w n path).
  destruct (server w n url) as [st loc body|err|err|st loc body]; simpl in Hf;
    [| |discriminate|discriminate].
  - destruct ((st =? 301) || (st =? 302)).
    + assert (exists log,
        (Rejected (Error "Redirect with no location header"),
         [CreateWriteStream dest; HttpGet url] ++ [Close dest; Unlink dest]) = (Rejected e, log)
        /\ replay log d = delete dest d) as Hgoal.
      { assert (e = Error "Redirect with no location header") as ->.
        { destruct loc as [l|]; [destruct (Js.truthy l)|]; congruence. }
        eexists. split; [reflexivity|].
        apply (replay_discarded dest url [] [Close dest] d).
        intros e' He'. apply list_elem_of_singleton in He'. subst e'. reflexivity. }
      destruct loc as [l|]; [|exact Hgoal].
      destruct (Js.truthy l); [discriminate|exact Hgoal].
    + destruct (negb (st =? 200)).
      * injection Hf as <-. eexists. split; [reflexivity|].
        apply (replay_discarded dest url [] [Close dest] d).
        intros e' He'. apply list_elem_of_singleton in He'. subst e'. reflexivity.
      * destruct (Z.ltb_spec MAX_FILE_BYTES (size body)) as [Hbig|]; [|discriminate].
        injection Hf as <-.
        destruct (receive_too_large dest body 0) as [written Hw];
          [unfold MAX_FILE_BYTES; lia | lia |].
        rewrite Hw. eexists. split; [reflexivity|].
        apply (replay_discarded dest url written [DestroyResponse; Close dest] d).
        intros e' He'. apply elem_of_cons in He' as [->|He']; [reflexivity|].
        apply list_elem_of_singleton in He'. subst e'. reflexivity.
  - injection Hf as <-. eexists. split; [reflexivity|].
    apply (replay_discarded dest url [] [Close dest] d).
    intros e' He'. apply list_elem_of_singleton in He'. subst e'. reflexivity.
Qed.

(** The disk after an invocation all of whose requests got a whole
    response or a request error: paths it did not open are as before,
    and every path it opened is gone unless it is the path the promise
    resolved to. *)
Lemma download_disk w fuel : forall n url o log,
  answered w fuel n url = true ->
  downloadFromUrl w fuel n url = (o, log) ->
  forall (d : disk) q,
    (q ∉ opened log -> replay log d !! q = d !! q) /\
    (q ∈ opened log -> o <> Resolved q -> replay log d !! q = None).
Proof.
  induction fuel as [|fuel IH]; intros n url o log Hans Hdl d q.
  { injection Hdl as <- <-. split; [reflexivity|]. intros Hq. inversion Hq. }
  simpl in Hdl, Hans. destruct (pathname w url) as [path|].
  2: { injection Hdl as <- <-. split; [reflexivity|]. intros Hq. inversion Hq. }
  set (dest := destPathOf w n path) in *.
  pose proof (discarded_disk dest url [] [Close dest] d q (close_untouching dest))
    as (Ho1 & Hout1 & Hin1).
  destruct (server w n url) as [st loc body|err|err|st loc body];
    [| |discriminate|discriminate].
  2: { injection Hdl as <- <-. split; [exact Hout1|intros Hq _; exact (Hin1 Hq)]. }
  destruct ((st =? 301) || (st =? 302)).
  - assert (forall l, (Rejected (Error "Redirect with no location header"),
              [CreateWriteStream dest; HttpGet url] ++ [Close dest; Unlink dest]) = (o, l) ->
            (q ∉ opened l -> replay l d !! q = d !! q) /\
            (q ∈ opened l -> o <> Resolved q -> replay l d !! q = None)) as Hterm.
    { intros l [= <- <-]. split; [exact Hout1|intros Hq _; exact (Hin1 Hq)]. }
    destruct loc as [l|]; [|exact (Hterm _ Hdl)].
    destruct (Js.truthy l); [|exact (Hterm _ Hdl)].
    destruct (downloadFromUrl w fuel (S n) l) as [o' log'] eqn:Hrec.
    injection Hdl as <- <-.
    destruct (IH _ _ _ _ Hans Hrec (delete dest d) q) as [Hout Hin].
    change (CreateWriteStream dest :: HttpGet url :: Close dest :: Unlink dest :: log')
      with ([CreateWriteStream dest; HttpGet url; Close dest; Unlink dest] ++ log').
    rewrite replay_app, opened_app.
    change (opened [CreateWriteStream dest; HttpGet url; Close dest; Unlink dest]) with [dest].
    assert (replay [CreateWriteStream dest; HttpGet url; Close dest; Unlink dest] d
            = delete dest d) as ->.
    { exact (replay_discarded dest url [] [Close dest] d (close_untouching dest)). }
    split.
    + intros Hq. rewrite Hout.
      * apply lookup_delete_ne. intros ->. apply Hq. left.
      * intros Hq'. apply Hq. right. exact Hq'.
    + intros Hq Hres. destruct (decide (q ∈ opened log')) as [Hq'|Hq'].
      * apply Hin; assumption.
      * rewrite (Hout Hq'). apply elem_of_cons in Hq as [->|Hq]; [|contradiction].
        apply lookup_delete_eq.
  - destruct (negb (st =? 200)).
    { injection Hdl as <- <-. split; [exact Hout1|intros Hq _; exact (Hin1 Hq)]. }
    destruct (receive dest body 0) as [o' log'] eqn:Hrec.
    injection Hdl as <- <-.
    destruct (receive_log _ _ _ _ _ Hrec) as [written [[-> ->]|[-> ->]]].
    + change (CreateWriteStream dest :: HttpGet url :: map (Write dest) written ++ [Close dest])
        with ([CreateWriteStream dest; HttpGet url] ++ map (Write dest) written ++ [Close dest]).
      assert (opened ([CreateWriteStream dest; HttpGet url]
                        ++ map (Write dest) written ++ [Close dest]) = [dest]) as ->.
      { rewrite !opened_app, opened_writes. reflexivity. }
      rewrite (replay_kept dest url written d). split.
      * intros Hq. apply lookup_insert_ne. intros ->. apply Hq. left.
      * intros Hq Hres. apply list_elem_of_singleton in Hq. subst q. congruence.
    + pose proof (discarded_disk dest url written [DestroyResponse; Close dest] d q
                    (destroy_close_untouching dest)) as (_ & Hout2 & Hin2).
      split; [exact Hout2|intros Hq _; exact (Hin2 Hq)].
Qed.

(** The failures the code cleans up after.  A request error, a status
    other than 200, 301 and 302, a redirect without a location, and a
    body larger than 5 MiB each reject with their own error and leave
    the disk as it was, minus the destination path; and when every
    request of an invocation got a whole response or a request error,
    every destination path it opened is absent afterwards unless it is
    the path it resolved to, however many redirects it followed. *)
Theorem handled_failures_clean_up w :
  (forall fuel n url path e (d : disk),
     pathname w url = Some path ->
     failureOf (server w n url) = Some e ->
     exists log,
       downloadFromUrl w (S fuel) n url = (Rejected e, log) /\
       replay log d = delete (destPathOf w n path) d /\
       replay log d !! destPathOf w n path = None) /\
  (forall fuel n url o log (d : disk) q,
     answered w fuel n url = true ->
     downloadFromUrl w fuel n url = (o, log) ->
     q ∈ opened log -> o <> Resolved q -> replay log d !! q = None).
Proof.
  split.
  - intros fuel n url path e d Hp Hf.
    destruct (download_failure w fuel n url path e d Hp Hf) as (log & Hdl & Hd).
    exists log. split; [exact Hdl|]. split; [exact Hd|].
    rewrite Hd. apply lookup_delete_eq.
  - intros fuel n url o log d q Hans Hdl Hq Hres.
    exact (proj2 (download_disk w fuel n url o log Hans Hdl d q) Hq Hres).
Qed.

Lemma handled_failures_clean_up_witness :
  (exists log,
     downloadFromUrl Demo.missing 1 0 "https://a.example/boom.mp3"
       = (Rejected (Error "Download failed with status 404"), log) /\
     replay log ∅ !! "/store/sounds/custom-1700000000000.mp3" = None) /\
  replay (snd (downloadFromUrl Demo.movedAway 5 0 "https://a.example/boom.mp3")) ∅
    !! "/store/sounds/custom-1700000000001.mp3" = None.
Proof.
  split.
  - destruct (proj1 (handled_failures_clean_up Demo.missing) 0%nat 0%nat
                "https://a.example/boom.mp3" "/boom.mp3"
                (Error "Download failed with status 404") ∅ eq_refl eq_refl)
      as (log & Hdl & _ & Hgone).
    exists log. split; [exact Hdl|exact Hgone].
  - refine (proj2 (handled_failures_clean_up Demo.movedAway) 5%nat 0%nat
              "https://a.example/boom.mp3"
              (Rejected (Error "Download failed with status 404")) _ ∅ _
              eq_refl eq_refl _ _).
    + vm_compute. right. left.
    + discriminate.
Defined.

Lemma receiveLost_fits destPath chunks received :
  received + size chunks <= MAX_FILE_BYTES ->
  receiveLost destPath chunks received = (Pending, map (Write destPath) chunks).
Proof.
  revert received. induction chunks as [|c rest IH]; intros received Hfit; [reflexivity|].
  rewrite size_cons in Hfit. pose proof (size_nonneg rest). simpl.
  destruct (Z.ltb_spec MAX_FILE_BYTES (received + Z.of_nat (length c))); [lia|].
  rewrite IH by lia. reflexivity.
Qed.

(** C1.  The code breaks the guarantee on two failure paths that its
    other failure paths handle.  The write stream is created before
    [client.get] is called: when that call throws (a URL whose protocol
    is not the chosen client's), the promise is rejected and the empty
    file stays at the destination.  And when a 200 response loses its
    connection after some chunks, no handler of the code runs: the
    promise stays pending and the chunks received so far stay in the
    file. *)
Theorem download_failure_can_leave_file w fuel n url path (d : disk) :
  pathname w url = Some path ->
  (forall err, server w n url = Refused err ->
     downloadFromUrl w (S fuel) n url
       = (Rejected (Thrown err), [CreateWriteStream (destPathOf w n path)]) /\
     replay [CreateWriteStream (destPathOf w n path)] d !! destPathOf w n path = Some []) /\
  (forall location received,
     server w n url = Interrupted 200 location received ->
     size received <= MAX_FILE_BYTES ->
     exists log,
       downloadFromUrl w (S fuel) n url = (Pending, log) /\
       replay log d !! destPathOf w n path = Some (concat received)).
Proof.
  intros Hp. split.
  - intros err Hs. simpl. rewrite Hp, Hs. split; [reflexivity|].
    unfold replay. simpl. apply lookup_insert_eq.
  - intros location received Hs Hfit. simpl. rewrite Hp, Hs. simpl.
    rewrite receiveLost_fits by (simpl; exact Hfit).
    eexists. split; [reflexivity|].
    set (dest := destPathOf w n path).
    change (CreateWriteStream dest :: HttpGet url :: map (Write dest) received)
      with ([CreateWriteStream dest; HttpGet url] ++ map (Write dest) received).
    rewrite replay_app.
    change (replay [CreateWriteStream dest; HttpGet url] d) with (<[dest := []]> d).
    rewrite (replay_writes dest received _ []) by apply lookup_insert_eq.
    apply lookup_insert_eq.
Qed.

Lemma download_failure_can_leave_file_witness :
  (downloadFromUrl Demo.plainServer 1 0 "ftp://files.example/boom.mp3"
     = (Rejected (Thrown ("Protocol " +:+ Js.dquote +:+ "ftp:" +:+ Js.dquote
                            +:+ " not supported. Expected " +:+ Js.dquote +:+ "http:"
                            +:+ Js.dquote)),
        [CreateWriteStream "/store/sounds/custom-1700000000000.mp3"]) /\
   replay [CreateWriteStream "/store/sounds/custom-1700000000000.mp3"] ∅
     !! "/store/sounds/custom-1700000000000.mp3" = Some []) /\
  (exists log,
     downloadFromUrl Demo.cutOff 1 0 "https://files.example/boom.mp3" = (Pending, log) /\
     replay log ∅ !! "/store/sounds/custom-1700000000000.mp3"
       = Some [Byte.x01; Byte.x02]).
Proof.
  split.
  - exact (proj1 (download_failure_can_leave_file Demo.plainServer 0 0
                    "ftp://files.example/boom.mp3" "/boom.mp3" ∅ eq_refl) _ eq_refl).
  - refine (proj2 (download_failure_can_leave_file Demo.cutOff 0 0
                     "https://files.example/boom.mp3" "/boom.mp3" ∅ eq_refl)
              None [[Byte.x01; Byte.x02]] eq_refl _).
    vm_compute. discriminate.
Defined.

(** *** Redirects *)

Lemma follow_redirect w fuel n url path statusCode loc body :
  pathname w url = Some path ->
  server w n url = Response statusCode (Some loc) body ->
  statusCode = 301 \/ statusCode = 302 ->
  Js.truthy loc = true ->
  downloadFromUrl w (S fuel) n url
  = (fst (downloadFromUrl w fuel (S n) loc),
     [CreateWriteStream (destPathOf w n path); HttpGet url;
      Close (destPathOf w n path); Unlink (destPathOf w n path)]
       ++ snd (downloadFromUrl w fuel (S n) loc)).
Proof.
  intros Hp Hs Hst Hl. simpl. rewrite Hp, Hs.
  assert ((statusCode =? 301) || (statusCode =? 302) = true) as ->.
  { destruct Hst as [-> | ->]; reflexivity. }
  rewrite Hl. destruct (downloadFromUrl w fuel (S n) loc). reflexivity.
Qed.

Lemma follow_redirects w u k : forall m fuel,
  (forall i, (m <= i < m + k)%nat -> redirectsAt w u i) ->
  exists pre,
    requests pre = map u (seq m k) /\
    downloadFromUrl w (k + fuel) m (u m)
    = (fst (downloadFromUrl w fuel (m + k) (u (m + k)%nat)),
       pre ++ snd (downloadFromUrl w fuel (m + k) (u (m + k)%nat))).
Proof.
  induction k as [|k IH]; intros m fuel Hred.
  - exists []. rewrite Nat.add_0_r. simpl.
    destruct (downloadFromUrl w fuel m (u m)). split; reflexivity.
  - destruct (Hred m) as (path & st & body & Hp & Hs & Hst & Hl); [lia|].
    destruct (IH (S m) fuel) as (pre & Hreq & Hdl); [intros i Hi; apply Hred; lia|].
    change (S k + fuel)%nat with (S (k + fuel)).
    rewrite (follow_redirect w (k + fuel) m (u m) path st (u (S m)) body Hp Hs Hst Hl).
    rewrite Hdl. replace (S m + k)%nat with (m + S k)%nat by lia. simpl.
    eexists (_ :: _ :: _ :: _ :: pre). split; [|reflexivity].
    simpl. unfold requests in Hreq. simpl. f_equal. exact Hreq.
Qed.

(** C2, as the code has it.  There is no redirect counter: however
    many consecutive redirects the server sends, each one is followed
    by a new request, and against a server that redirects at every
    request the promise is pending after any number of steps. *)
Theorem redirects_all_followed w u :
  (forall k, (forall i, (i < k)%nat -> redirectsAt w u i) ->
     forall fuel, exists pre,
       requests pre = map u (seq 0 k) /\
       downloadFromUrl w (k + fuel) 0 (u 0%nat)
       = (fst (downloadFromUrl w fuel k (u k)),
          pre ++ snd (downloadFromUrl w fuel k (u k)))) /\
  ((forall i, redirectsAt w u i) ->
     forall fuel,
       fst (downloadFromUrl w fuel 0 (u 0%nat)) = Pending /\
       requests (snd (downloadFromUrl w fuel 0 (u 0%nat))) = map u (seq 0 fuel)).
Proof.
  split.
  - intros k Hred fuel.
    destruct (follow_redirects w u k 0 fuel) as (pre & Hreq & Hdl);
      [intros i Hi; apply Hred; lia|].
    exists pre. split; [exact Hreq|exact Hdl].
  - intros Hred fuel.
    destruct (follow_redirects w u fuel 0 0) as (pre & Hreq & Hdl);
      [intros i _; apply Hred|].
    rewrite Nat.add_0_r in Hdl. rewrite Hdl. simpl.
    rewrite app_nil_r. split; [reflexivity|exact Hreq].
Qed.

Lemma redirects_all_followed_witness :
  fst (downloadFromUrl Demo.loopWorld 50 0 Demo.loopUrl) = Pending.
Proof.
  refine (proj1 (proj2 (redirects_all_followed Demo.loopWorld (fun _ => Demo.loopUrl)) _ 50%nat)).
  intros i. exists "/a.mp3", 302, []. repeat split; try reflexivity. right. reflexivity.
Defined.

(** *** Destination names *)

Lemma pretty_N_go_nodot x s : nodot s -> nodot (pretty_N_go x s).
Proof.
  revert s. induction (N.lt_wf_0 x) as [x _ IH]; intros s Hs.
  destruct (decide (x = 0%N)) as [->|Hx]; [rewrite pretty_N_go_0; exact Hs|].
  rewrite pretty_N_go_step by lia. apply IH.
  - apply N.div_lt; lia.
  - split; [|exact Hs]. unfold pretty_N_char. repeat case_match; discriminate.
Qed.

Lemma pretty_Z_nodot (z : Z) : nodot (pretty z).
Proof.
  assert (forall p : positive, nodot (pretty p)) as Hpos.
  { intros p. unfold pretty, pretty_positive, pretty, pretty_N.
    case_decide; [discriminate|]. apply pretty_N_go_nodot. exact I. }
  destruct z as [|p|p]; unfold pretty, pretty_Z.
  - simpl. split; [discriminate|exact I].
  - apply Hpos.
  - simpl. split; [discriminate|apply Hpos].
Qed.

Lemma app_dot_inj a b s t :
  nodot a -> nodot b ->
  a +:+ String "."%char s = b +:+ String "."%char t -> a = b /\ s = t.
Proof.
  revert b. induction a as [|c a IH]; intros [|c' b] Ha Hb Heq; simpl in *.
  - injection Heq as ->. split; reflexivity.
  - injection Heq as <- _. destruct Hb as [Hb _]. congruence.
  - injection Heq as -> _. destruct Ha as [Ha _]. congruence.
  - injection Heq as -> Heq. destruct Ha as [_ Ha], Hb as [_ Hb].
    destruct (IH b Ha Hb Heq) as [-> ->]. split; reflexivity.
Qed.

Lemma extOf_dotted w p : dotted (extname w p) -> exists rest, extOf w p = String "."%char rest.
Proof.
  unfold extOf. intros [->|[rest ->]]; simpl; eauto.
Qed.

(** C8, as the code has it.  The destination is named after the clock
    reading and the extension only: two invocations that store into the
    same directory get the same destination path exactly when they read
    the same millisecond and have the same extension.  Invocations at
    different milliseconds never share a path. *)
Theorem destination_shared_iff w1 w2 n1 n2 p1 p2 :
  dotted (extname w1 p1) -> dotted (extname w2 p2) ->
  downloadDir w1 = downloadDir w2 ->
  (destPathOf w1 n1 p1 = destPathOf w2 n2 p2 <->
   clock w1 n1 = clock w2 n2 /\ extOf w1 p1 = extOf w2 p2) /\
  (clock w1 n1 <> clock w2 n2 -> filename w1 n1 p1 <> filename w2 n2 p2).
Proof.
  intros Hd1 Hd2 Hdir.
  destruct (extOf_dotted w1 p1 Hd1) as [r1 He1].
  destruct (extOf_dotted w2 p2 Hd2) as [r2 He2].
  assert (filename w1 n1 p1 = filename w2 n2 p2 ->
          clock w1 n1 = clock w2 n2 /\ extOf w1 p1 = extOf w2 p2) as Hname.
  { unfold filename. rewrite He1, He2. intros Heq.
    apply (inj (String.app "custom-")) in Heq.
    apply app_dot_inj in Heq as [Hc ->]; try apply pretty_Z_nodot.
    apply (inj pretty) in Hc. split; [exact Hc|reflexivity]. }
  split; [split|].
  - unfold destPathOf, join. rewrite Hdir. intros Heq.
    apply (inj (String.app (downloadDir w2))) in Heq.
    apply (inj (String.app "/")) in Heq. exact (Hname Heq).
  - intros [Hc He]. unfold destPathOf, filename. rewrite Hdir, Hc, He. reflexivity.
  - intros Hne Heq. apply Hne. exact (proj1 (Hname Heq)).
Qed.

Lemma destination_shared_iff_witness :
  filename Demo.plainServer 0 "/boom.mp3" <> filename Demo.plainServer 1 "/boom.mp3".
Proof.
  refine (proj2 (destination_shared_iff Demo.plainServer Demo.plainServer 0 1
                   "/boom.mp3" "/boom.mp3" _ _ eq_refl) _).
  - right. exists "mp3". reflexivity.
  - right. exists "mp3". reflexivity.
  - vm_compute. discriminate.
Defined.

(** *** Counterexamples to the claims the code does not meet *)

(** C2 as stated fails: against a server that redirects six times the
    download makes seven requests and succeeds, and against one that
    redirects for ever it keeps requesting: after any number of steps
    that many requests were made and the promise is still pending. *)
Lemma redirects_not_bounded :
  (fst (downloadFromUrl Demo.sixHops 7 0 Demo.loopUrl)
     = Resolved "/store/sounds/custom-1700000000006.mp3" /\
   length (requests (snd (downloadFromUrl Demo.sixHops 7 0 Demo.loopUrl))) = 7%nat) /\
  (forall fuel,
     fst (downloadFromUrl Demo.loopWorld fuel 0 Demo.loopUrl) = Pending /\
     length (requests (snd (downloadFromUrl Demo.loopWorld fuel 0 Demo.loopUrl))) = fuel).
Proof.
  split; [split; vm_compute; reflexivity|].
  intros fuel. generalize 0%nat. induction fuel as [|fuel IH]; intros n.
  - split; reflexivity.
  - specialize (IH (S n)).
    rewrite (follow_redirect Demo.loopWorld fuel n Demo.loopUrl "/a.mp3" 302 Demo.loopUrl [])
      by (reflexivity || (right; reflexivity)).
    destruct IH as [IH1 IH2]. split; [exact IH1|].
    cbn [snd]. rewrite requests_app, length_app, IH2. reflexivity.
Qed.

(** C8 as stated fails: two downloads of different URLs started in the
    same millisecond both resolve to the same path. *)
Lemma simultaneous_downloads_share_path :
  "https://a.example/boom.mp3" <> "https://b.example/sad/trombone.mp3" /\
  fst (downloadFromUrl Demo.plainServer 1 0 "https://a.example/boom.mp3")
    = Resolved "/store/sounds/custom-1700000000000.mp3" /\
  fst (downloadFromUrl Demo.plainServer 1 0 "https://b.example/sad/trombone.mp3")
    = Resolved "/store/sounds/custom-1700000000000.mp3".
Proof. split; [discriminate|]. split; vm_compute; reflexivity. Qed.

End SfxManagerFacts.

Module WebviewFacts.
Import JsText Webview.

Lemma string_app_cons x (a b : string) : String x a +:+ b = String x (a +:+ b).
Proof. reflexivity. Qed.

Lemma string_app_assoc (a b c : string) : (a +:+ b) +:+ c = a +:+ (b +:+ c).
Proof.
  induction a as [|x a IH]; [reflexivity|].
  rewrite !string_app_cons, IH. reflexivity.
Qed.

Lemma string_app_length (a b : string) :
  String.length (a +:+ b) = (String.length a + String.length b)%nat.
Proof.
  induction a as [|x a IH]; [reflexivity|].
  rewrite string_app_cons. simpl. rewrite IH. reflexivity.
Qed.

Lemma replaceAll_app c r a b :
  replaceAll c r (a +:+ b) = replaceAll c r a +:+ replaceAll c r b.
Proof.
  induction a as [|x a IH]; [reflexivity|]. rewrite string_app_cons. simpl.
  destruct (Ascii.eqb x c); rewrite IH; [|reflexivity].
  symmetry. apply string_app_assoc.
Qed.

Lemma contains_app c a b : contains c (a +:+ b) = contains c a || contains c b.
Proof.
  induction a as [|x a IH]; [reflexivity|].
  rewrite string_app_cons. simpl. rewrite IH. apply orb_assoc.
Qed.

(** The four passes amount to one pass that rewrites each character on
    its own: the entities written by an earlier pass are not touched by
    a later one. *)
Lemma escapeHtml_cons a rest :
  escapeHtml (String a rest) = escapeChar a +:+ escapeHtml rest.
Proof.
  unfold escapeHtml, escapeChar. simpl.
  destruct (Ascii.eqb_spec a "&"%char) as [->|Hamp].
  { rewrite !replaceAll_app. reflexivity. }
  simpl. destruct (Ascii.eqb_spec a "<"%char) as [->|Hlt].
  { rewrite !replaceAll_app. reflexivity. }
  simpl. destruct (Ascii.eqb_spec a ">"%char) as [->|Hgt].
  { rewrite !replaceAll_app. reflexivity. }
  simpl. destruct (Ascii.eqb_spec a quot) as [->|Hq]; reflexivity.
Qed.

Lemma escapeChar_plain a : special a = false -> escapeChar a = String a EmptyString.
Proof.
  unfold special, escapeChar. intros H.
  destruct (Ascii.eqb a "&"%char); [discriminate|].
  destruct (Ascii.eqb a "<"%char); [discriminate|].
  destruct (Ascii.eqb a ">"%char); [discriminate|].
  destruct (Ascii.eqb a quot); [discriminate|reflexivity].
Qed.

Lemma escapeChar_special a :
  special a = true ->
  exists tail, escapeChar a = String "&"%char tail /\ (1 <= String.length tail)%nat.
Proof.
  unfold special, escapeChar. intros H.
  destruct (Ascii.eqb a "&"%char); [eexists; split; [reflexivity|simpl; lia]|].
  destruct (Ascii.eqb a "<"%char); [eexists; split; [reflexivity|simpl; lia]|].
  destruct (Ascii.eqb a ">"%char); [eexists; split; [reflexivity|simpl; lia]|].
  destruct (Ascii.eqb a quot); [eexists; split; [reflexivity|simpl; lia]|discriminate].
Qed.

Lemma escapeChar_clean a c :
  c = "<"%char \/ c = ">"%char \/ c = quot -> contains c (escapeChar a) = false.
Proof.
  intros Hc. unfold escapeChar.
  destruct (Ascii.eqb_spec a "&"%char); [destruct Hc as [ -> | [ -> | -> ] ]; reflexivity|].
  destruct (Ascii.eqb_spec a "<"%char); [destruct Hc as [ -> | [ -> | -> ] ]; reflexivity|].
  destruct (Ascii.eqb_spec a ">"%char); [destruct Hc as [ -> | [ -> | -> ] ]; reflexivity|].
  destruct (Ascii.eqb_spec a quot); [destruct Hc as [ -> | [ -> | -> ] ]; reflexivity|].
  simpl. rewrite orb_false_r. apply Ascii.eqb_neq.
  destruct Hc as [ -> | [ -> | -> ] ]; assumption.
Qed.

(** The escaped text holds no [<], no [>] and no double quote, whatever
    the input. *)
Theorem escapeHtml_no_markup str :
  contains "<"%char (escapeHtml str) = false /\
  contains ">"%char (escapeHtml str) = false /\
  contains quot (escapeHtml str) = false.
Proof.
  induction str as [|a rest IH]; [repeat split|].
  destruct IH as (IH1 & IH2 & IH3).
  rewrite escapeHtml_cons, !contains_app, IH1, IH2, IH3.
  rewrite !escapeChar_clean by auto. repeat split.
Qed.

Lemma escapeHtml_length str : (String.length str <= String.length (escapeHtml str))%nat.
Proof.
  induction str as [|a rest IH]; [reflexivity|].
  rewrite escapeHtml_cons, string_app_length. simpl.
  destruct (special a) eqn:Hs.
  - destruct (escapeChar_special a Hs) as (tail & -> & Hl). simpl. lia.
  - rewrite (escapeChar_plain a Hs). simpl. lia.
Qed.

(** Escaping loses nothing: two texts with the same escaped form are
    the same text. *)
Theorem escapeHtml_injective s1 s2 : escapeHtml s1 = escapeHtml s2 -> s1 = s2.
Proof.
  revert s2. induction s1 as [|a r1 IH]; intros [|b r2].
  - reflexivity.
  - rewrite escapeHtml_cons. unfold escapeChar.
    repeat case_match; discriminate.
  - rewrite escapeHtml_cons. unfold escapeChar.
    repeat case_match; discriminate.
  - rewrite !escapeHtml_cons. unfold escapeChar.
    destruct (Ascii.eqb_spec a "&"%char) as [->|Ha1];
      [|destruct (Ascii.eqb_spec a "<"%char) as [->|Ha2];
        [|destruct (Ascii.eqb_spec a ">"%char) as [->|Ha3];
          [|destruct (Ascii.eqb_spec a quot) as [->|Ha4]]]];
    (destruct (Ascii.eqb_spec b "&"%char) as [->|Hb1];
      [|destruct (Ascii.eqb_spec b "<"%char) as [->|Hb2];
        [|destruct (Ascii.eqb_spec b ">"%char) as [->|Hb3];
          [|destruct (Ascii.eqb_spec b quot) as [->|Hb4]]]]);
    simpl; intros Heq; try discriminate Heq;
    try (injection Heq as Heq; f_equal; apply IH; exact Heq);
    try (injection Heq as Hc Heq; congruence).
    injection Heq as -> Heq. f_equal. apply IH. exact Heq.
Qed.

Lemma escapeHtml_injective_witness : "a<b&c" = "a<b&c".
Proof. apply (escapeHtml_injective "a<b&c" "a<b&c"). reflexivity. Defined.

(** A text is left as it is exactly when it holds none of the four
    characters; single quotes, in particular, are not escaped. *)
Theorem escapeHtml_fixed_iff str :
  escapeHtml str = str <->
  contains "&"%char str = false /\ contains "<"%char str = false /\
  contains ">"%char str = false /\ contains quot str = false.
Proof.
  induction str as [|a rest IH]; [split; [repeat split|reflexivity]|].
  rewrite escapeHtml_cons. simpl. destruct (special a) eqn:Hs.
  - split.
    + intros Heq. exfalso.
      destruct (escapeChar_special a Hs) as (tail & Ht & Hl).
      rewrite Ht in Heq. simpl in Heq. injection Heq as _ Heq.
      pose proof (escapeHtml_length rest) as Hlen.
      apply (f_equal String.length) in Heq. rewrite string_app_length in Heq. lia.
    + intros (H1 & H2 & H3 & H4). exfalso. unfold special in Hs.
      apply orb_false_iff in H1 as [H1 _]. apply orb_false_iff in H2 as [H2 _].
      apply orb_false_iff in H3 as [H3 _]. apply orb_false_iff in H4 as [H4 _].
      rewrite H1, H2, H3, H4 in Hs. discriminate.
  - rewrite (escapeChar_plain a Hs). simpl.
    unfold special in Hs. apply orb_false_iff in Hs as [Hs H4].
    apply orb_false_iff in Hs as [Hs H3]. apply orb_false_iff in Hs as [H1 H2].
    rewrite H1, H2, H3, H4. simpl. rewrite <- IH. split.
    + intros [= Heq]. exact Heq.
    + intros ->. reflexivity.
Qed.

Lemma alphanumeric_app a b :
  alphanumeric (a +:+ b) = alphanumeric a && alphanumeric b.
Proof.
  induction a as [|x a IH]; [reflexivity|].
  rewrite string_app_cons. simpl. rewrite IH. apply andb_assoc.
Qed.

Lemma charAt_chars k :
  0 <= k < 62 ->
  String.length (charAt chars k) = 1%nat /\ alphanumeric (charAt chars k) = true.
Proof.
  intros Hk.
  assert (forallb (fun n => (String.length (charAt chars (Z.of_nat n)) =? 1)%nat
                            && alphanumeric (charAt chars (Z.of_nat n))) (seq 0 62) = true)
    as Hall by (vm_compute; reflexivity).
  rewrite forallb_forall in Hall.
  assert (In (Z.to_nat k) (seq 0 62)) as Hin by (apply in_seq; lia).
  specialize (Hall _ Hin). rewrite Z2Nat.id in Hall by lia.
  apply andb_true_iff in Hall as [Hlen Hal].
  apply Nat.eqb_eq in Hlen. split; assumption.
Qed.

Section Rounding.
Import SpecFloat.

Lemma numberOf_62 : numberOf 62 = S754_finite false 8725724278030336 (-47).
Proof. reflexivity. Qed.

Lemma one_eq : one = S754_finite false 4503599627370496 (-52).
Proof. reflexivity. Qed.

Lemma fexp_eq x : fexp prec emax x = Z.max (x - 53) (-1074).
Proof. reflexivity. Qed.

Lemma digits2_size p : digits2_pos p = Pos.size p.
Proof. induction p as [p IH|p IH|]; simpl; rewrite ?IH; reflexivity. Qed.

Lemma digits2_upper p : Zpos p < 2 ^ Zpos (digits2_pos p).
Proof.
  rewrite digits2_size. pose proof (Pos.size_gt p) as H.
  apply Pos2Z.pos_lt_pos in H. rewrite Pos2Z.inj_pow in H. exact H.
Qed.

Lemma digits2_lower p : 2 ^ Zpos (digits2_pos p) <= 2 * Zpos p.
Proof.
  rewrite digits2_size. pose proof (Pos.size_le p) as H.
  apply Pos2Z.pos_le_pos in H. rewrite Pos2Z.inj_pow in H. exact H.
Qed.

Lemma shr_1_div2 mrs :
  0 <= shr_m mrs ->
  shr_m (shr_1 mrs) = shr_m mrs / 2 /\ shr_r (shr_1 mrs) = Z.odd (shr_m mrs).
Proof.
  destruct mrs as [m r s]. simpl. intros Hm.
  destruct m as [|p|p]; [split; reflexivity| |lia].
  destruct p as [p|p|]; simpl; (split; [|reflexivity]).
  - rewrite Pos2Z.inj_xI. apply (Z.div_unique _ 2 _ 1); lia.
  - rewrite Pos2Z.inj_xO. apply (Z.div_unique _ 2 _ 0); lia.
  - reflexivity.
Qed.

Lemma shifted_step M j mrs :
  0 <= M -> shifted M j mrs -> shifted M (j + 1) (shr_1 mrs).
Proof.
  intros HM (Hj & Hm & Hr).
  assert (0 < 2 ^ j) as Hpow by (apply Z.pow_pos_nonneg; lia).
  assert (0 <= shr_m mrs) as Hnn by (rewrite Hm; apply Z.div_pos; lia).
  destruct (shr_1_div2 mrs Hnn) as [Hm' Hr'].
  assert (2 ^ (j + 1) = 2 ^ j * 2) as Hp2 by (rewrite Z.pow_add_r by lia; reflexivity).
  split; [lia|]. split.
  - rewrite Hm', Hm, Hp2, Z.div_div by lia. reflexivity.
  - rewrite Hr', Hm. intros Hodd. rewrite Hp2, Z.rem_mul_r by lia.
    assert ((M / 2 ^ j) mod 2 = 1) as ->.
    { rewrite Zmod_odd, Hodd. reflexivity. }
    pose proof (Z.mod_pos_bound M (2 ^ j) Hpow). lia.
Qed.

Lemma shifted_iter M p : 0 <= M -> forall j mrs,
  shifted M j mrs -> shifted M (j + Zpos p) (iter_pos shr_1 p mrs).
Proof.
  intros HM. induction p as [p IH|p IH|]; intros j mrs H; simpl.
  - replace (j + Zpos p~1) with (j + 1 + Zpos p + Zpos p) by lia.
    apply IH, IH, shifted_step; assumption.
  - replace (j + Zpos p~0) with (j + Zpos p + Zpos p) by lia.
    apply IH, IH; assumption.
  - apply shifted_step; assumption.
Qed.

Lemma shifted_start M : shifted M 0 (shr_record_of_loc M loc_Exact).
Proof.
  split; [lia|]. split; [simpl; rewrite Z.div_1_r; reflexivity|]. simpl. discriminate.
Qed.

(** Rounding to nearest after a shift by [n] bits is at most half a
    unit above the exact value. *)
Lemma round_shr M e n :
  0 <= M ->
  let '(mrs, e') := shr (shr_record_of_loc M loc_Exact) e n in
  let q := round_nearest_even (shr_m mrs) (loc_of_shr_record mrs) in
  e <= e' /\ 0 <= q /\
  q * 2 ^ (e' - e) <= M + (if 0 <? n then 2 ^ (n - 1) else 0).
Proof.
  intros HM. destruct n as [|p|p]; simpl.
  1,3: rewrite Z.sub_diag; simpl; lia.
  pose proof (shifted_iter M p HM 0 _ (shifted_start M)) as (_ & Hm & Hr).
  rewrite Z.add_0_l in Hm, Hr.
  set (mrs := iter_pos shr_1 p _) in *.
  assert (0 < 2 ^ (Zpos p - 1)) as Hhalf by (apply Z.pow_pos_nonneg; lia).
  assert (2 ^ Zpos p = 2 * 2 ^ (Zpos p - 1)) as Hp2.
  { rewrite <- Z.pow_succ_r by lia. f_equal; lia. }
  pose proof (Z.div_mod M (2 ^ Zpos p) ltac:(lia)) as Hdm.
  pose proof (Z.mod_pos_bound M (2 ^ Zpos p) ltac:(lia)) as Hmod.
  assert (0 <= M / 2 ^ Zpos p) as Hq by (apply Z.div_pos; lia).
  replace (e + Zpos p - e) with (Zpos p) by lia.
  split; [lia|].
  destruct mrs as [m r s]. simpl in Hm, Hr. subst m.
  set (q := M / 2 ^ Zpos p) in *. set (rem := M mod 2 ^ Zpos p) in *.
  set (pow := 2 ^ Zpos p) in *. set (half := 2 ^ (Zpos p - 1)) in *.
  clearbody q rem pow half.
  destruct r, s; simpl; [specialize (Hr eq_refl)|specialize (Hr eq_refl)| |].
  2: case_match.
  all: split; lia.
Qed.

(** The same for a second, exact shift. *)
Lemma exact_shr q e n :
  0 <= q ->
  let '(mrs, e') := shr (shr_record_of_loc q loc_Exact) e n in
  e <= e' /\ 0 <= shr_m mrs /\ shr_m mrs * 2 ^ (e' - e) <= q.
Proof.
  intros Hq. destruct n as [|p|p]; simpl.
  1,3: rewrite Z.sub_diag; simpl; lia.
  pose proof (shifted_iter q p Hq 0 _ (shifted_start q)) as (_ & Hm & _).
  rewrite Z.add_0_l in Hm. set (mrs := iter_pos shr_1 p _) in *. rewrite Hm.
  replace (e + Zpos p - e) with (Zpos p) by lia.
  assert (0 < 2 ^ Zpos p) as Hpow by (apply Z.pow_pos_nonneg; lia).
  split; [lia|]. split; [apply Z.div_pos; lia|].
  rewrite Z.mul_comm. apply Z.mul_div_le. lia.
Qed.

(** The product the multiplication returns is at most half a unit in
    the last place above the exact product. *)
Lemma round_aux_bound s M e0 :
  0 < M ->
  exists m e,
    e0 <= e /\ 0 <= m /\
    m * 2 ^ (e - e0)
      <= M + (if 0 <? fexp prec emax (Zdigits2 M + e0) - e0
              then 2 ^ (fexp prec emax (Zdigits2 M + e0) - e0 - 1) else 0) /\
    binary_round_aux prec emax s M e0 loc_Exact
    = match m with
      | 0 => S754_zero s
      | Zpos p => if e <=? emax - prec then S754_finite s p e else S754_infinity s
      | Zneg _ => S754_nan
      end.
Proof.
  intros HM. unfold binary_round_aux, shr_fexp.
  set (n := fexp prec emax (Zdigits2 M + e0) - e0).
  pose proof (round_shr M e0 n ltac:(lia)) as H1.
  destruct (shr (shr_record_of_loc M loc_Exact) e0 n) as [mrs e'].
  cbv zeta in H1. destruct H1 as (He' & Hq & Hb).
  set (q := round_nearest_even (shr_m mrs) (loc_of_shr_record mrs)) in *.
  pose proof (exact_shr q e' (fexp prec emax (Zdigits2 q + e') - e') Hq) as H2.
  destruct (shr (shr_record_of_loc q loc_Exact) e' _) as [mrs2 e2].
  destruct H2 as (He2 & Hm2 & Hb2).
  exists (shr_m mrs2), e2. split; [lia|]. split; [exact Hm2|]. split; [|reflexivity].
  replace (e2 - e0) with ((e2 - e') + (e' - e0)) by lia.
  rewrite Z.pow_add_r by lia.
  assert (0 < 2 ^ (e' - e0)) by (apply Z.pow_pos_nonneg; lia).
  etransitivity; [|exact Hb]. rewrite Z.mul_assoc.
  apply Z.mul_le_mono_nonneg_r; lia.
Qed.

Lemma finite_unitInterval s m e :
  unitInterval (S754_finite s m e) = true ->
  s = false /\ Zpos m < 2 ^ 53 /\ -1074 <= e <= -53.
Proof.
  unfold unitInterval. rewrite !andb_true_iff. intros [[Hv Hle] Hlt].
  destruct s; [discriminate|]. split; [reflexivity|].
  unfold valid_binary, bounded, canonical_mantissa in Hv.
  apply andb_true_iff in Hv as [Hc _]. apply Z.eqb_eq in Hc. rewrite fexp_eq in Hc.
  pose proof (digits2_upper m) as Hup. pose proof (digits2_lower m) as Hlo.
  set (d := Zpos (digits2_pos m)) in *.
  assert (d <= 53) as Hd by lia.
  assert (2 ^ d <= 2 ^ 53) as Hpow by (apply Z.pow_le_mono_r; lia).
  split; [lia|]. split; [lia|].
  rewrite one_eq in Hlt. unfold SFltb, SFcompare in Hlt.
  destruct (Z.compare_spec e (-52)) as [He|He|He]; [|lia|discriminate].
  exfalso. assert (d = 53) as Hd53 by lia. rewrite Hd53 in Hlo.
  rewrite Pos.compare_cont_spec in Hlt.
  destruct (Pos.compare_spec m 4503599627370496) as [Hcmp|Hcmp|Hcmp]; try discriminate.
  apply Pos2Z.pos_lt_pos in Hcmp.
  change (2 ^ 53) with 9007199254740992 in Hlo. lia.
Qed.

(** The index [Math.floor(Math.random() * 62)] is one of 0, ..., 61. *)
Lemma draw_in_range x :
  unitInterval x = true ->
  exists k, floorIndex (mul x (numberOf 62)) = Some k /\ 0 <= k < 62.
Proof.
  intros Hx. rewrite numberOf_62. destruct x as [s| s| |s m e].
  - exists 0. split; [reflexivity|lia].
  - unfold unitInterval in Hx. destruct s; discriminate.
  - discriminate.
  - destruct (finite_unitInterval s m e Hx) as (-> & Hm & He).
    unfold mul, SFmul. cbn [xorb].
    set (M := Zpos (m * 8725724278030336)). set (e0 := e + -47).
    assert (M = Zpos m * 8725724278030336) as HM by reflexivity.
    destruct (round_aux_bound false M e0 ltac:(lia)) as (m2 & e2 & He2 & Hm2 & Hb & ->).
    rewrite fexp_eq in Hb.
    (* the shift is at most [-e] bits *)
    assert (Zdigits2 M <= 106) as HD.
    { unfold M. cbn [Zdigits2]. fold M.
      pose proof (digits2_lower (m * 8725724278030336)) as Hlo. fold M in Hlo.
      destruct (Z.le_gt_cases (Zpos (digits2_pos (m * 8725724278030336))) 106) as [|Hgt];
        [assumption|exfalso].
      assert (2 ^ 107 <= 2 ^ Zpos (digits2_pos (m * 8725724278030336)))
        by (apply Z.pow_le_mono_r; lia).
      change (2 ^ 53) with 9007199254740992 in Hm.
      change (2 ^ 107) with 162259276829213363391578010288128 in *. lia. }
    set (n := Z.max (Zdigits2 M + e0 - 53) (-1074) - e0) in *.
    assert (n <= - e) as Hn by (unfold n, e0; lia).
    set (a := - e) in *.
    assert (2 ^ (- e0) = 2 ^ 100 * 2 ^ (a - 53)) as Hunit.
    { rewrite <- Z.pow_add_r by lia. f_equal; unfold e0, a; lia. }
    assert (0 < 2 ^ (a - 53)) as HP by (apply Z.pow_pos_nonneg; lia).
    assert ((if 0 <? n then 2 ^ (n - 1) else 0) <= 2 ^ 52 * 2 ^ (a - 53)) as Hhalf.
    { destruct (Z.ltb_spec 0 n).
      - rewrite <- Z.pow_add_r by lia. apply Z.pow_le_mono_r; lia.
      - lia. }
    assert (m2 * 2 ^ (e2 - e0) < 62 * 2 ^ (- e0)) as Hlt.
    { rewrite Hunit. change (2 ^ 53) with 9007199254740992 in Hm.
      change (2 ^ 100) with 1267650600228229401496703205376.
      change (2 ^ 52) with 4503599627370496 in Hhalf.
      generalize dependent (2 ^ (a - 53)). intros P HP Hhalf Hunit. lia. }
    assert (0 < 2 ^ (e2 - e0)) as Hp2 by (apply Z.pow_pos_nonneg; lia).
    assert (0 < 2 ^ (- e0)) as Hp0 by (apply Z.pow_pos_nonneg; unfold e0, a in *; lia).
    destruct m2 as [|p|p]; [exists 0; split; [reflexivity|lia]| |lia].
    assert (e2 < 6) as He6.
    { destruct (Z.le_gt_cases 6 e2) as [Hge|]; [exfalso|lia].
      assert (2 ^ (6 + - e0) <= 2 ^ (e2 - e0)) as Hmono by (apply Z.pow_le_mono_r; lia).
      rewrite Z.pow_add_r in Hmono by (unfold e0, a in *; lia).
      change (2 ^ 6) with 64 in Hmono. nia. }
    destruct (Z.leb_spec e2 (emax - prec)) as [_|Hbig]; [|unfold emax, prec in Hbig; lia].
    cbn [floorIndex cond_Zopp]. eexists. split; [reflexivity|].
    destruct (Z.le_gt_cases 0 e2) as [Hpos|Hneg].
    + rewrite Z.shiftl_mul_pow2 by lia.
      assert (2 ^ (e2 - e0) = 2 ^ e2 * 2 ^ (- e0)) as Heq.
      { rewrite <- Z.pow_add_r by (unfold e0, a in *; lia). f_equal; lia. }
      rewrite Heq, Z.mul_assoc in Hlt.
      apply Z.mul_lt_mono_pos_r in Hlt; [|lia].
      assert (0 < 2 ^ e2) by (apply Z.pow_pos_nonneg; lia). nia.
    + rewrite Z.shiftl_div_pow2 by lia.
      assert (0 < 2 ^ (- e2)) as Hpe by (apply Z.pow_pos_nonneg; lia).
      split; [apply Z.div_pos; lia|].
      apply Z.div_lt_upper_bound; [lia|].
      assert (2 ^ (- e0) = 2 ^ (- e2) * 2 ^ (e2 - e0)) as Heq.
      { rewrite <- Z.pow_add_r by lia. f_equal; lia. }
      rewrite Heq, Z.mul_assoc in Hlt.
      apply Z.mul_lt_mono_pos_r in Hlt; lia.
Qed.

End Rounding.

Lemma nonceLoop_spec random steps : forall i text,
  (forall j, (i <= j < i + steps)%nat -> unitInterval (random j) = true) ->
  String.length (nonceLoop random i steps text) = (String.length text + steps)%nat /\
  alphanumeric (nonceLoop random i steps text) = alphanumeric text.
Proof.
  induction steps as [|steps IH]; intros i text Hr.
  - simpl. split; [lia|reflexivity].
  - cbn [nonceLoop]. change (Z.of_nat (String.length chars)) with 62.
    destruct (draw_in_range (random i) (Hr i ltac:(lia))) as (k & Hk & Hrange).
    unfold charAtFloor. rewrite Hk.
    destruct (charAt_chars k Hrange) as [Hlen Hal].
    destruct (IH (S i) (text +:+ charAt chars k) ltac:(intros j Hj; apply Hr; lia))
      as [IHl IHa].
    rewrite IHl, IHa, string_app_length, alphanumeric_app, Hlen, Hal.
    split; [lia|apply andb_true_r].
Qed.

(** A nonce has exactly 32 characters, all of them letters or digits,
    whatever numbers of its range the 32 calls of [Math.random()]
    return: the rounded product with 62 never reaches 62. *)
Theorem getNonce_shape random :
  (forall j, (j < 32)%nat -> unitInterval (random j) = true) ->
  String.length (getNonce random) = 32%nat /\ alphanumeric (getNonce random) = true.
Proof.
  intros Hr. unfold getNonce.
  destruct (nonceLoop_spec random 32 0%nat "" ltac:(intros j Hj; apply Hr; lia)) as [Hl Ha].
  split; [exact Hl|exact Ha].
Qed.

Lemma getNonce_shape_witness :
  String.length (getNonce Demo.draws) = 32%nat /\ alphanumeric (getNonce Demo.draws) = true.
Proof.
  apply (getNonce_shape Demo.draws).
  intros j Hj. unfold Demo.draws. destruct (Nat.even j); reflexivity.
Defined.

End WebviewFacts.

Module GenerateSoundsFacts.
Import JsText GenerateSounds.

(** *** The cache *)

(** Once a directory has been scanned, scanning it again returns the
    same entries and leaves the cache as it is, whatever the file system
    holds by then (an empty result for a missing directory included);
    only [refreshCache] makes the next scan read the directory again. *)
Theorem scan_is_cached node later soundsDir c :
  scanSoundsDir later soundsDir (snd (scanSoundsDir node soundsDir c))
    = scanSoundsDir node soundsDir c /\
  fst (scanSoundsDir later soundsDir (refreshCache (snd (scanSoundsDir node soundsDir c))))
    = if existsSync later soundsDir then readSounds later soundsDir else [].
Proof.
  split.
  - unfold scanSoundsDir.
    destruct (cachedDir c) as [d|] eqn:Hd; [destruct (cachedSounds c) as [l|] eqn:Hl|].
    + destruct (String.eqb d soundsDir) eqn:Heq.
      * simpl. rewrite Hd, Hl, Heq. reflexivity.
      * destruct (existsSync node soundsDir); simpl; rewrite String.eqb_refl; reflexivity.
    + destruct (existsSync node soundsDir); simpl; rewrite String.eqb_refl; reflexivity.
    + destruct (existsSync node soundsDir); simpl; rewrite String.eqb_refl; reflexivity.
  - unfold refreshCache, scanSoundsDir. simpl.
    destruct (existsSync later soundsDir); reflexivity.
Qed.

(** *** What a scan returns *)

Lemma insertSorted_perm {A} (compare : A -> A -> Z) x l :
  Permutation (insertSorted compare x l) (x :: l).
Proof.
  induction l as [|y rest IH]; simpl; [reflexivity|].
  destruct (0 <? compare x y); [|reflexivity].
  rewrite IH. apply perm_swap.
Qed.

Lemma sortBy_perm {A} (compare : A -> A -> Z) l : Permutation (sortBy compare l) l.
Proof.
  induction l as [|x rest IH]; simpl; [reflexivity|].
  rewrite insertSorted_perm. apply perm_skip. exact IH.
Qed.

Lemma entryOf_file node config f : SfxManager.file (entryOf node config f) = f.
Proof. reflexivity. Qed.

(** A scan that reads an existing directory returns one entry for each
    of its files whose extension is [.mp3], [.wav] or [.ogg] in any
    letter case, and nothing else; each entry is named after its file
    without the extension. *)
Theorem scan_lists_audio_files node soundsDir :
  existsSync node soundsDir = true ->
  Permutation (map SfxManager.file (fst (scanSoundsDir node soundsDir noCache)))
              (List.filter (isAudio node) (readdirSync node soundsDir)) /\
  Forall (fun e =>
            In (SfxManager.file e) (readdirSync node soundsDir) /\
            In (toLowerCase (extname node (SfxManager.file e))) AUDIO_EXTENSIONS /\
            SfxManager.name e
              = basename node (SfxManager.file e) (extname node (SfxManager.file e)))
         (fst (scanSoundsDir node soundsDir noCache)).
Proof.
  intros Hex. unfold scanSoundsDir, noCache. simpl. rewrite Hex. simpl.
  unfold readSounds. split.
  - rewrite sortBy_perm, map_map.
    erewrite map_ext; [rewrite map_id; reflexivity|]. intros f. reflexivity.
  - apply Forall_forall. intros e He. apply list_elem_of_In in He.
    apply (Permutation_in _ (sortBy_perm _ _)) in He.
    apply in_map_iff in He as (f & <- & Hf).
    apply filter_In in Hf as [Hin Haudio]. simpl.
    split; [exact Hin|]. split; [|reflexivity].
    unfold isAudio in Haudio. apply existsb_exists in Haudio as (x & Hx & Heq).
    apply String.eqb_eq in Heq. rewrite Heq. exact Hx.
Qed.

Lemma scan_lists_audio_files_witness :
  Permutation
    (map SfxManager.file
       (fst (scanSoundsDir Samples.node Samples.soundsDir noCache)))
    ["mario-death.WAV"; "faah.mp3"].
Proof.
  exact (proj1 (scan_lists_audio_files Samples.node Samples.soundsDir eq_refl)).
Defined.

(** *** Labels made from file names *)

Lemma toUpper_facts c :
  isWord (toUpper c) = isWord c /\ toUpper (toUpper c) = toUpper c /\
  isLower (toUpper c) = false /\
  (Ascii.eqb c "-"%char || Ascii.eqb c "_"%char = false ->
   Ascii.eqb (toUpper c) "-"%char || Ascii.eqb (toUpper c) "_"%char = false).
Proof.
  destruct c as [[] [] [] [] [] [] [] []]; vm_compute; repeat split; congruence.
Qed.

Lemma spaceOut_plain s : plain (spaceOut s).
Proof.
  induction s as [|c rest [IH1 IH2]]; [split; reflexivity|].
  unfold plain. simpl. rewrite IH1, IH2.
  destruct (Ascii.eqb_spec c "-"%char) as [->|H1]; [split; reflexivity|].
  destruct (Ascii.eqb_spec c "_"%char) as [->|H2]; [split; reflexivity|].
  simpl. rewrite !orb_false_r. split; apply Ascii.eqb_neq; assumption.
Qed.

Lemma spaceOut_of_plain s : plain s -> spaceOut s = s.
Proof.
  induction s as [|c rest IH]; [reflexivity|]. intros [H1 H2]. simpl in *.
  apply orb_false_iff in H1 as [H1 H1']. apply orb_false_iff in H2 as [H2 H2'].
  rewrite H1, H2. simpl. rewrite IH by (split; assumption). reflexivity.
Qed.

Lemma capitalize_plain b s : plain s -> plain (capitalize b s).
Proof.
  revert b. induction s as [|c rest IH]; intros b [H1 H2]; [split; reflexivity|].
  simpl in *. apply orb_false_iff in H1 as [H1 H1']. apply orb_false_iff in H2 as [H2 H2'].
  destruct (IH (isWord c) (conj H1' H2')) as [I1 I2].
  unfold plain. simpl. rewrite I1, I2, !orb_false_r.
  destruct (isWord c && negb b).
  - destruct (toUpper_facts c) as (_ & _ & _ & Hup).
    apply orb_false_iff. apply Hup. rewrite H1, H2. reflexivity.
  - split; assumption.
Qed.

Lemma capitalize_idempotent b s : capitalize b (capitalize b s) = capitalize b s.
Proof.
  revert b. induction s as [|c rest IH]; intros b; [reflexivity|]. simpl.
  destruct (toUpper_facts c) as (Hw & Hu & _).
  destruct (isWord c && negb b) eqn:Hc.
  - rewrite Hw, Hc, Hu, IH. reflexivity.
  - rewrite Hc, IH. reflexivity.
Qed.

Lemma capitalize_length b s : String.length (capitalize b s) = String.length s.
Proof.
  revert b. induction s as [|c rest IH]; intros b; [reflexivity|].
  simpl. rewrite IH. reflexivity.
Qed.

Lemma spaceOut_length s : String.length (spaceOut s) = String.length s.
Proof. induction s as [|c rest IH]; [reflexivity|]. simpl. rewrite IH. reflexivity. Qed.

(** The label made from a file name has the length of the name, holds
    no hyphen and no underscore, does not start with a lower-case
    letter, and is a label that the same rewriting leaves alone. *)
Theorem defaultLabel_shape name :
  String.length (defaultLabel name) = String.length name /\
  contains "-"%char (defaultLabel name) = false /\
  contains "_"%char (defaultLabel name) = false /\
  (forall c rest, defaultLabel name = String c rest -> isLower c = false) /\
  defaultLabel (defaultLabel name) = defaultLabel name.
Proof.
  unfold defaultLabel.
  pose proof (capitalize_plain false _ (spaceOut_plain name)) as Hplain.
  split; [rewrite capitalize_length; apply spaceOut_length|].
  split; [exact (proj1 Hplain)|]. split; [exact (proj2 Hplain)|]. split.
  - intros c rest. destruct (spaceOut name) as [|a r]; [discriminate|].
    simpl. rewrite andb_true_r. intros [= <- _].
    destruct (isWord a) eqn:Hw.
    + exact (proj1 (proj2 (proj2 (toUpper_facts a)))).
    + unfold isWord in Hw. apply orb_false_iff in Hw as [Hw _].
      apply orb_false_iff in Hw as [Hw _]. apply orb_false_iff in Hw as [_ Hw]. exact Hw.
  - rewrite (spaceOut_of_plain _ Hplain). apply capitalize_idempotent.
Qed.

(** *** Lookups by name *)

Lemma findSound_spec sounds n :
  match findSound sounds n with
  | Some e => In e sounds /\ SfxManager.name e = n
  | None => ~ In n (SfxManager.getBuiltInSoundNames sounds)
  end.
Proof.
  unfold findSound. destruct (List.find _ sounds) as [e|] eqn:Hf.
  - apply find_some in Hf as [Hin Heq]. apply String.eqb_eq in Heq. split; assumption.
  - intros Hin. apply in_map_iff in Hin as (e & He & Hin).
    pose proof (find_none _ _ Hf e Hin) as Hne. simpl in Hne.
    rewrite He, String.eqb_refl in Hne. discriminate.
Qed.

(** The four lookups agree: a name is built in exactly when it has a
    file, and then file, label and emoji all come from one scanned entry
    of that name; for a name that is not built in there is no file, the
    label is the name itself and the emoji is the default one. *)
Theorem lookups_agree (h : SfxManager.Host) n :
  let sounds := SfxManager.builtInSounds h in
  (SfxManager.isBuiltIn h n = true <->
   is_Some (SfxManager.getBuiltInSoundFile sounds n)) /\
  (SfxManager.isBuiltIn h n = true ->
   exists e, In e sounds /\ SfxManager.name e = n /\
     SfxManager.getBuiltInSoundFile sounds n = Some (SfxManager.file e) /\
     getBuiltInSoundLabel sounds n = SfxManager.label e /\
     getBuiltInSoundEmoji sounds n = SfxManager.emoji e) /\
  (SfxManager.isBuiltIn h n = false ->
   SfxManager.getBuiltInSoundFile sounds n = None /\
   getBuiltInSoundLabel sounds n = n /\
   getBuiltInSoundEmoji sounds n = DEFAULT_EMOJI).
Proof.
  intros sounds.
  assert (SfxManager.isBuiltIn h n = true <-> In n (SfxManager.getBuiltInSoundNames sounds))
    as Hin.
  { unfold SfxManager.isBuiltIn. fold sounds. rewrite existsb_exists. split.
    - intros (x & Hx & Heq). apply String.eqb_eq in Heq. subst x. exact Hx.
    - intros Hn. exists n. split; [exact Hn|apply String.eqb_refl]. }
  pose proof (findSound_spec sounds n) as Hfind.
  unfold SfxManager.getBuiltInSoundFile, getBuiltInSoundLabel, getBuiltInSoundEmoji.
  unfold findSound in *.
  destruct (List.find _ sounds) as [e|]; simpl.
  - destruct Hfind as [He Hn].
    assert (SfxManager.isBuiltIn h n = true) as Hb.
    { apply Hin. apply in_map_iff. exists e. split; assumption. }
    split; [split; [eauto|intros _; exact Hb]|].
    split; [intros _; exists e; repeat split; assumption|].
    rewrite Hb. discriminate.
  - split; [split; [intros Hb; exfalso; apply Hfind, Hin, Hb|intros [x Hx]; discriminate]|].
    split; [intros Hb; exfalso; apply Hfind, Hin, Hb|].
    intros _. repeat split.
Qed.

End GenerateSoundsFacts.

Module PlaybackFacts.
Import AudioPlayer.

Lemma logError_completion sys exitFirst now cmd args :
  logError (completion (supervised sys exitFirst now cmd args))
  = if fails exitFirst (sys cmd args)
    then [ConsoleError "[Terminal Sound Effects] Playback error:"] else [].
Proof.
  rewrite <- (AudioPlayerFacts.failed_supervised sys exitFirst now cmd args).
  unfold failed, logError.
  destruct (completion (supervised sys exitFirst now cmd args)) as [[t []]|]; reflexivity.
Qed.

(** On macOS and on Windows exactly one process is spawned, at the time
    of the call; when it cannot be started or ends with an error one
    line is written to the console and no other player is tried, and
    when it succeeds nothing is written.  On a platform that is none of
    darwin, linux and win32 nothing happens at all. *)
Theorem single_player_platforms platform sys exitFirst now options :
  (platform = "darwin" \/ platform = "win32" ->
   exists cmd args,
     playSound platform sys exitFirst now options
     = Spawned cmd args (supervised sys exitFirst now cmd args)
         :: (if fails exitFirst (sys cmd args)
             then [ConsoleError "[Terminal Sound Effects] Playback error:"] else [])) /\
  (platform <> "darwin" -> platform <> "linux" -> platform <> "win32" ->
   playSound platform sys exitFirst now options = []).
Proof.
  split.
  - intros [-> | ->]; unfold playSound; simpl.
    + eexists _, _. rewrite logError_completion. reflexivity.
    + unfold playWindows. destruct (Js.endsWith (filePath options) ".wav");
        eexists _, _; rewrite logError_completion; reflexivity.
  - intros H1 H2 H3. unfold playSound.
    destruct (String.eqb_spec platform "darwin"); [contradiction|].
    destruct (String.eqb_spec platform "linux"); [contradiction|].
    destruct (String.eqb_spec platform "win32"); [contradiction|reflexivity].
Qed.

Lemma single_player_platforms_witness :
  playSound "darwin" Demo.desktop true 1000 Demo.request
  = [Spawned "afplay"
       [Str "-v"; NumStr (afplayVolume (inject_Z 80)); Str "/ext/media/sounds/faah.mp3"]
       (supervised Demo.desktop true 1000 "afplay"
          [Str "-v"; NumStr (afplayVolume (inject_Z 80)); Str "/ext/media/sounds/faah.mp3"])].
Proof.
  destruct (proj1 (single_player_platforms "darwin" Demo.desktop true 1000 Demo.request)
              (or_introl eq_refl)) as (cmd & args & Heq).
  rewrite Heq. injection Heq as <- <-. reflexivity.
Defined.



(** *** Quoting for PowerShell *)

Lemma readSingleQuoted_doubleQuotes s after :
  (forall rest, after <> String "'"%char rest) ->
  readSingleQuoted (Js.doubleQuotes s +:+ String "'"%char after) = Some (s, after).
Proof.
  intros Hafter. induction s as [|c rest IH].
  - simpl. destruct after as [|c2 rest2]; [reflexivity|].
    destruct (Ascii.eqb_spec c2 "'"%char) as [->|_]; [|reflexivity].
    exfalso. exact (Hafter rest2 eq_refl).
  - simpl. destruct (Ascii.eqb_spec c "'"%char) as [->|Hc].
    + rewrite !WebviewFacts.string_app_cons. simpl. rewrite IH. reflexivity.
    + rewrite WebviewFacts.string_app_cons. simpl.
      destruct (Ascii.eqb_spec c "'"%char); [contradiction|]. rewrite IH. reflexivity.
Qed.

(** For a [.wav] file the script handed to PowerShell is
    [(New-Object System.Media.SoundPlayer '...').PlaySync()] where the
    quoted literal reads back as exactly the file path, whatever quotes
    the path holds. *)
Theorem wav_path_quoted sys exitFirst now options :
  Js.endsWith (filePath options) ".wav" = true ->
  exists literal proc rest,
    playSound "win32" sys exitFirst now options
    = Spawned "powershell"
        [Str "-NoProfile"; Str "-Command";
         Str ("(New-Object System.Media.SoundPlayer '" +:+ literal)] proc :: rest /\
    readSingleQuoted literal = Some (filePath options, ").PlaySync()").
Proof.
  intros Hwav. unfold playSound, playWindows. simpl. rewrite Hwav.
  exists (Js.doubleQuotes (filePath options) +:+ "').PlaySync()"). eexists _, _.
  split; [reflexivity|].
  apply (readSingleQuoted_doubleQuotes (filePath options) ").PlaySync()").
  intros rest. discriminate.
Qed.

Lemma wav_path_quoted_witness :
  exists literal proc rest,
    playSound "win32" Demo.desktop true 0 {| filePath := "C:\it's.wav"; volume := 80 |}
    = Spawned "powershell"
        [Str "-NoProfile"; Str "-Command";
         Str ("(New-Object System.Media.SoundPlayer '" +:+ literal)] proc :: rest /\
    readSingleQuoted literal = Some ("C:\it's.wav", ").PlaySync()").
Proof.
  apply (wav_path_quoted Demo.desktop true 0 {| filePath := "C:\it's.wav"; volume := 80 |}).
  reflexivity.
Defined.

End PlaybackFacts.

Module ManagerFacts.
Import AudioPlayer SfxManager.

(** *** Alerts *)

Lemma resolveSelectedSound_exists h p :
  resolveSelectedSound h = Some p -> existsSync h p = true.
Proof.
  unfold resolveSelectedSound.
  destruct (Js.truthy (selectedSound h)); simpl; [|discriminate].
  destruct (isAbsolute h (selectedSound h)).
  - destruct (existsSync h (selectedSound h)) eqn:He; [|discriminate].
    intros [= <-]. exact He.
  - destruct (getBuiltInSoundFile _ _) as [f|]; [|discriminate].
    destruct (Js.truthy f); [|discriminate].
    destruct (existsSync h (join (builtInDir h) f)) eqn:He; [|discriminate].
    intros [= <-]. exact He.
Qed.

(** Whenever an alert calls [playSound], the feature is on, the file
    handed over is the one the selection resolves to and exists, and the
    volume is the configured one. *)
Theorem alert_plays_existing_file h now st st' o :
  handleError h now st = (st', Some o) ->
  enabled h = true /\
  resolveSelectedSound h = Some (filePath o) /\
  existsSync h (filePath o) = true /\
  volume o = volumeSetting h.
Proof.
  unfold handleError. destruct (enabled h); simpl; [|discriminate].
  destruct (now - lastPlayTime st <? DEBOUNCE_MS); [discriminate|].
  destruct (resolveSelectedSound h) as [p|] eqn:Hp; [|discriminate].
  destruct (Js.truthy p); [|discriminate].
  intros [= _ <-]. simpl. repeat split.
  exact (resolveSelectedSound_exists h p Hp).
Qed.

Lemma alert_plays_existing_file_witness :
  existsSync Demo.host "/ext/media/sounds/faah.mp3" = true.
Proof.
  exact (proj1 (proj2 (proj2 (alert_plays_existing_file Demo.host 1000 fresh
           {| lastPlayTime := 1000 |}
           {| filePath := "/ext/media/sounds/faah.mp3"; volume := 80 |} eq_refl)))).
Defined.

Lemma disabled_alerts_are_inert h times st :
  enabled h = false -> handleErrors h times st = (st, []).
Proof.
  intros Hoff. induction times as [|now rest IH]; [reflexivity|].
  simpl. unfold handleError at 1. rewrite Hoff. simpl. rewrite IH. reflexivity.
Qed.

(** Toggling the feature off says so, and from then on alerts play
    nothing and leave the debounce state untouched, however many there
    are; toggling again gives back the settings as they were. *)
Theorem toggled_off_is_inert h times st :
  enabled h = true ->
  snd (toggle h) = Information "Terminal Sound Effects disabled." /\
  handleErrors (fst (toggle h)) times st = (st, []) /\
  fst (toggle (fst (toggle h))) = h.
Proof.
  intros Hon. split; [unfold toggle; rewrite Hon; reflexivity|]. split.
  - apply disabled_alerts_are_inert. simpl. rewrite Hon. reflexivity.
  - destruct h as [e sel vol abs ex dir sounds]. simpl in *. subst e. reflexivity.
Qed.

Lemma toggled_off_is_inert_witness :
  handleErrors (fst (toggle Demo.host)) [1000; 2000; 3000] fresh = (fresh, []).
Proof.
  exact (proj1 (proj2 (toggled_off_is_inert Demo.host [1000; 2000; 3000] fresh eq_refl))).
Defined.

(** An alert that finds no sound to play still restarts the debounce
    interval: the next alert within 300 ms is dropped even if a sound
    can be resolved by then. *)
Theorem silent_alert_restarts_interval h h' now now' st :
  enabled h = true -> resolveSelectedSound h = None ->
  DEBOUNCE_MS <= now - lastPlayTime st ->
  now' - now < DEBOUNCE_MS ->
  handleError h now st = ({| lastPlayTime := now |}, None) /\
  handleError h' now' (fst (handleError h now st)) = ({| lastPlayTime := now |}, None).
Proof.
  intros Hon Hnone Hgap Hsoon.
  assert (handleError h now st = ({| lastPlayTime := now |}, None)) as Hfirst.
  { unfold handleError. rewrite Hon, Hnone. simpl.
    destruct (Z.ltb_spec (now - lastPlayTime st) DEBOUNCE_MS); [lia|reflexivity]. }
  split; [exact Hfirst|]. rewrite Hfirst. simpl.
  apply SfxManagerFacts.handleError_dropped. simpl. exact Hsoon.
Qed.

Lemma silent_alert_restarts_interval_witness :
  handleError Demo.host 1100 (fst (handleError Samples.silentHost 1000 fresh))
  = ({| lastPlayTime := 1000 |}, None).
Proof.
  refine (proj2 (silent_alert_restarts_interval Samples.silentHost Demo.host 1000 1100 fresh
                   eq_refl eq_refl _ _)).
  - discriminate.
  - reflexivity.
Defined.

(** *** Selection *)

Lemma found_is_builtIn h n f :
  getBuiltInSoundFile (builtInSounds h) n = Some f -> isBuiltIn h n = true.
Proof.
  unfold getBuiltInSoundFile, isBuiltIn, getBuiltInSoundNames.
  destruct (List.find _ (builtInSounds h)) as [e|] eqn:Hf; [|discriminate].
  intros _. apply find_some in Hf as [Hin Heq]. apply String.eqb_eq in Heq.
  apply existsb_exists. exists n. split; [|apply String.eqb_refl].
  apply in_map_iff. exists e. split; assumption.
Qed.

Lemma reset_default h :
  resetIfInvalid (selectSound DEFAULT_SOUND h) = selectSound DEFAULT_SOUND h.
Proof.
  unfold resetIfInvalid. simpl.
  destruct (isAbsolute h DEFAULT_SOUND && existsSync h DEFAULT_SOUND); [reflexivity|].
  destruct (negb (isAbsolute h DEFAULT_SOUND) && isBuiltIn (selectSound DEFAULT_SOUND h) DEFAULT_SOUND);
    reflexivity.
Qed.

(** On start a selection that resolves to a file is kept, and so is an
    empty selection; anything that is replaced is replaced by the default
    sound, nothing but the selection changes, and running the check
    again changes nothing more. *)
Theorem resetIfInvalid_repairs h :
  (forall p, resolveSelectedSound h = Some p -> resetIfInvalid h = h) /\
  (selectedSound h = "" -> resetIfInvalid h = h) /\
  (resetIfInvalid h = h \/ resetIfInvalid h = selectSound DEFAULT_SOUND h) /\
  resetIfInvalid (resetIfInvalid h) = resetIfInvalid h.
Proof.
  split; [|split; [|split]].
  - intros p. unfold resolveSelectedSound, resetIfInvalid.
    destruct (Js.truthy (selectedSound h)); simpl; [|discriminate].
    destruct (isAbsolute h (selectedSound h)); simpl.
    + destruct (existsSync h (selectedSound h)); [reflexivity|discriminate].
    + destruct (getBuiltInSoundFile _ _) as [f|] eqn:Hf; [|discriminate].
      rewrite (found_is_builtIn h _ f Hf). reflexivity.
  - intros Hempty. unfold resetIfInvalid. rewrite Hempty. reflexivity.
  - unfold resetIfInvalid.
    destruct (negb (Js.truthy (selectedSound h))); [left; reflexivity|].
    destruct (isAbsolute h (selectedSound h) && existsSync h (selectedSound h));
      [left; reflexivity|].
    destruct (negb (isAbsolute h (selectedSound h)) && isBuiltIn h (selectedSound h));
      [left; reflexivity|right; reflexivity].
  - assert (resetIfInvalid h = h \/ resetIfInvalid h = selectSound DEFAULT_SOUND h)
      as [Hkeep|Hreset].
    { unfold resetIfInvalid.
      destruct (negb (Js.truthy (selectedSound h))); [left; reflexivity|].
      destruct (isAbsolute h (selectedSound h) && existsSync h (selectedSound h));
        [left; reflexivity|].
      destruct (negb (isAbsolute h (selectedSound h)) && isBuiltIn h (selectedSound h));
        [left; reflexivity|right; reflexivity]. }
    + rewrite Hkeep. exact Hkeep.
    + rewrite Hreset. apply reset_default.
Qed.

Lemma resetIfInvalid_repairs_witness : resetIfInvalid Demo.host = Demo.host.
Proof.
  exact (proj1 (resetIfInvalid_repairs Demo.host) "/ext/media/sounds/faah.mp3" eq_refl).
Defined.




(** *** More on the fetcher *)



(** A redirect whose location is not an absolute URL is not resolved
    against the URL it came from: the second invocation rejects with the
    [TypeError] of [new URL], after one request, and the destination
    opened for the first one is removed. *)
Theorem relative_redirect_rejected w fuel n url path statusCode target ignored (d : disk) :
  pathname w url = Some path ->
  server w n url = Response statusCode (Some target) ignored ->
  statusCode = 301 \/ statusCode = 302 ->
  Js.truthy target = true ->
  pathname w target = None ->
  exists log,
    downloadFromUrl w (S (S fuel)) n url = (Rejected InvalidUrl, log) /\
    requests log = [url] /\
    replay log d = delete (destPathOf w n path) d.
Proof.
  intros Hp Hs Hst Ht Hbad.
  rewrite (SfxManagerFacts.follow_redirect w (S fuel) n url path statusCode target ignored
             Hp Hs Hst Ht).
  simpl. rewrite Hbad. eexists. split; [reflexivity|]. split; [reflexivity|].
  exact (SfxManagerFacts.replay_discarded (destPathOf w n path) url [] [Close _] d
           (SfxManagerFacts.close_untouching _)).
Qed.

Lemma relative_redirect_rejected_witness :
  exists log,
    downloadFromUrl (Samples.hop "/relative.mp3") 2 0 "https://a.example/boom.mp3"
      = (Rejected InvalidUrl, log) /\
    requests log = ["https://a.example/boom.mp3"].
Proof.
  destruct (relative_redirect_rejected (Samples.hop "/relative.mp3") 0 0
              "https://a.example/boom.mp3" "/boom.mp3" 301 "/relative.mp3" [] ∅
              eq_refl eq_refl (or_introl eq_refl) eq_refl eq_refl) as (log & Hdl & Hreq & _).
  exists log. split; [exact Hdl|exact Hreq].
Defined.

(** The chunks [receive] writes are a prefix of the chunks it is given,
    within the limit. *)
Lemma receive_bounded destPath chunks received o log :
  received <= MAX_FILE_BYTES ->
  receive destPath chunks received = (o, log) ->
  exists written unwritten tail,
    chunks = written ++ unwritten /\
    received + size written <= MAX_FILE_BYTES /\
    log = map (Write destPath) written ++ tail /\
    (forall e, e ∈ tail -> touches e = None \/ e = Unlink destPath).
Proof.
  revert received o log. induction chunks as [|c rest IH]; intros received o log Hle; simpl.
  - intros [= <- <-]. exists [], [], [Close destPath].
    split; [reflexivity|]. split; [unfold size; simpl; lia|]. split; [reflexivity|].
    intros e He. apply list_elem_of_singleton in He. subst e. left. reflexivity.
  - destruct (Z.ltb_spec MAX_FILE_BYTES (received + Z.of_nat (length c))) as [Hbig|Hfit].
    + intros [= <- <-]. exists [], (c :: rest), [DestroyResponse; Close destPath; Unlink destPath].
      split; [reflexivity|]. split; [unfold size; simpl; lia|]. split; [reflexivity|].
      intros e He. repeat (apply elem_of_cons in He as [->|He]; [auto|]).
      inversion He.
    + destruct (receive destPath rest _) as [o' log'] eqn:Hr. intros [= <- <-].
      destruct (IH _ _ _ Hfit Hr) as (written & unwritten & tail & -> & Hsz & -> & Htail).
      exists (c :: written), unwritten, tail.
      split; [reflexivity|]. split; [rewrite SfxManagerFacts.size_cons; lia|].
      split; [reflexivity|exact Htail].
Qed.

(** Whatever the server sends with status 200, the chunks written to
    the destination are a prefix of the body of at most 5 MiB in total,
    and nothing is written after them. *)
Theorem download_writes_bounded w fuel n url path location body :
  pathname w url = Some path ->
  server w n url = Response 200 location body ->
  exists written unwritten tail,
    body = written ++ unwritten /\
    size written <= MAX_FILE_BYTES /\
    snd (downloadFromUrl w (S fuel) n url)
    = [CreateWriteStream (destPathOf w n path); HttpGet url]
        ++ map (Write (destPathOf w n path)) written ++ tail /\
    (forall e, e ∈ tail -> touches e = None \/ e = Unlink (destPathOf w n path)).
Proof.
  intros Hp Hs. simpl. rewrite Hp, Hs. simpl.
  destruct (receive (destPathOf w n path) body 0) as [o log] eqn:Hr.
  destruct (receive_bounded _ _ 0 o log ltac:(unfold MAX_FILE_BYTES; lia) Hr)
    as (written & unwritten & tail & Hb & Hsz & -> & Htail).
  exists written, unwritten, tail. split; [exact Hb|]. split; [lia|].
  split; [reflexivity|exact Htail].
Qed.

Lemma download_writes_bounded_witness :
  exists written unwritten,
    [[Byte.x01; Byte.x02]; [Byte.x03]] = written ++ unwritten /\
    size written <= MAX_FILE_BYTES.
Proof.
  destruct (download_writes_bounded Demo.plainServer 0 0 "https://a.example/boom.mp3"
              "/boom.mp3" None [[Byte.x01; Byte.x02]; [Byte.x03]] eq_refl eq_refl)
    as (written & unwritten & tail & Hb & Hsz & _).
  exists written, unwritten. split; [exact Hb|exact Hsz].
Defined.

End ManagerFacts.

Module HandlerFacts.
Import AudioPlayer SfxManager Webview.

(** Whenever an alert would play a sound, previewing the selected sound
    plays the same file at the same volume; a preview does not look at
    the enabled flag, at the debounce state or at whether an absolute
    path exists. *)
Theorem preview_matches_alert out h :
  (forall p, resolveSelectedSound h = Some p ->
     onDidReceiveMessage out (Preview (selectedSound h)) h
     = Some {| host := h; notices := [];
               played := Some {| filePath := p; volume := volumeSetting h |};
               calls := [] |}) /\
  (forall n, isAbsolute h n = true -> Js.truthy n = true ->
     onDidReceiveMessage out (Preview n) h
     = Some {| host := h; notices := [];
               played := Some {| filePath := n; volume := volumeSetting h |};
               calls := [] |}).
Proof.
  split.
  - intros p Hp. pose proof (SfxManagerFacts.resolveSelectedSound_truthy h p Hp) as Htruthy.
    unfold resolveSelectedSound in Hp. unfold onDidReceiveMessage, resolveSoundPath.
    destruct (Js.truthy (selectedSound h)); simpl in Hp; [|discriminate].
    destruct (isAbsolute h (selectedSound h)).
    + destruct (existsSync h (selectedSound h)); [|discriminate].
      injection Hp as <-. rewrite Htruthy. reflexivity.
    + destruct (getBuiltInSoundFile _ _) as [f|]; [|discriminate].
      destruct (Js.truthy f); [|discriminate].
      destruct (existsSync h (join (builtInDir h) f)); [|discriminate].
      injection Hp as <-. rewrite Htruthy. reflexivity.
  - intros n Habs Htruthy. unfold onDidReceiveMessage, resolveSoundPath.
    rewrite Habs, Htruthy. reflexivity.
Qed.

Lemma preview_matches_alert_witness :
  onDidReceiveMessage Samples.outside (Preview "faah") Demo.host
  = Some {| host := Demo.host; notices := [];
            played := Some {| filePath := "/ext/media/sounds/faah.mp3"; volume := 80 |};
            calls := [] |}.
Proof.
  exact (proj1 (preview_matches_alert Samples.outside Demo.host)
           "/ext/media/sounds/faah.mp3" eq_refl).
Defined.

(** A resolved download is a destination the download itself opened,
    and the file is there. *)
Lemma resolved_file_exists w fuel : forall n url p log (d : disk),
  downloadFromUrl w fuel n url = (Resolved p, log) ->
  is_Some (replay log d !! p) /\ Js.truthy p = true.
Proof.
  induction fuel as [|fuel IH]; intros n url p log d Hdl; [discriminate|].
  simpl in Hdl. destruct (pathname w url) as [path|]; [|discriminate].
  set (dest := destPathOf w n path) in *.
  assert (forall loc : option string,
            match loc with
            | Some l =>
                if Js.truthy l
                then let '(o, l0) := downloadFromUrl w fuel (S n) l in
                     (o, ([CreateWriteStream dest; HttpGet url] ++ [Close dest; Unlink dest])
                           ++ l0)
                else (Rejected (Error "Redirect with no location header"),
                      [CreateWriteStream dest; HttpGet url] ++ [Close dest; Unlink dest])
            | None => (Rejected (Error "Redirect with no location header"),
                       [CreateWriteStream dest; HttpGet url] ++ [Close dest; Unlink dest])
            end = (Resolved p, log) ->
            is_Some (replay log d !! p) /\ Js.truthy p = true) as Hredirect.
  { intros loc Hloc. destruct loc as [l|]; [|discriminate].
    destruct (Js.truthy l); [|discriminate].
    destruct (downloadFromUrl w fuel (S n) l) as [o' log'] eqn:Hrec.
    injection Hloc as -> <-.
    change (is_Some (replay ([CreateWriteStream dest; HttpGet url; Close dest; Unlink dest]
                               ++ log') d !! p) /\ Js.truthy p = true).
    rewrite SfxManagerFacts.replay_app. apply (IH _ _ _ _ _ Hrec). }
  destruct (server w n url) as [st loc body|err|err|st loc body];
    [|discriminate|discriminate|].
  2: { destruct ((st =? 301) || (st =? 302)); [exact (Hredirect loc Hdl)|].
       destruct (negb (st =? 200)); [discriminate|].
       destruct (receiveLost dest body 0) as [o' log'] eqn:Hrec.
       injection Hdl as -> <-. exfalso. clear -Hrec.
       revert Hrec. generalize 0. generalize log'. clear log'.
       induction body as [|c rest IHb]; intros log' z; simpl; [discriminate|].
       destruct (MAX_FILE_BYTES <? z + Z.of_nat (length c)); [discriminate|].
       destruct (receiveLost dest rest _) as [o2 l2] eqn:Hr2.
       intros [= -> _]. exact (IHb _ _ Hr2). }
  destruct ((st =? 301) || (st =? 302)).
  - exact (Hredirect loc Hdl).
  - destruct (negb (st =? 200)); [discriminate|].
    destruct (receive dest body 0) as [o' log'] eqn:Hrec.
    injection Hdl as -> <-.
    destruct (SfxManagerFacts.receive_log _ _ _ _ _ Hrec) as [written [[Ho ->]|[Ho _]]];
      [|discriminate].
    injection Ho as ->. split; [|apply SfxManagerFacts.join_truthy].
    change (CreateWriteStream dest :: HttpGet url :: map (Write dest) written ++ [Close dest])
      with ([CreateWriteStream dest; HttpGet url] ++ map (Write dest) written ++ [Close dest]).
    rewrite (SfxManagerFacts.replay_kept dest url written d), lookup_insert_eq. eauto.
Qed.

(** After a download that succeeds the downloaded file is the selected
    sound, and the next accepted alert plays it (when its path is
    absolute); after one that fails the selection is as before and one
    error message that carries the reason is shown. *)
Theorem download_message_selects out url h (d : disk) now st :
  (forall p log,
     downloadFromUrl (world out) (fuel out) 0 url = (Resolved p, log) ->
     onDidReceiveMessage out (DownloadUrl url) h
     = Some {| host := selectSound p h;
               notices := [Information "Sound downloaded and selected!"];
               played := None; calls := log |} /\
     (isAbsolute h p = true -> enabled h = true ->
      DEBOUNCE_MS <= now - lastPlayTime st ->
      handleError (onDisk (replay log d) (selectSound p h)) now st
      = ({| lastPlayTime := now |},
         Some {| filePath := p; volume := volumeSetting h |}))) /\
  (forall e log,
     downloadFromUrl (world out) (fuel out) 0 url = (Rejected e, log) ->
     onDidReceiveMessage out (DownloadUrl url) h
     = Some {| host := h;
               notices := [ErrorMessage ("Download failed: " +:+ messageOf e)];
               played := None; calls := log |}).
Proof.
  split.
  - intros p log Hdl. unfold onDidReceiveMessage. rewrite Hdl. split; [reflexivity|].
    intros Habs Hon Hgap.
    destruct (resolved_file_exists _ _ _ _ _ _ d Hdl) as [Hfile Htruthy].
    refine (SfxManagerFacts.handleError_accepted
              (onDisk (replay log d) (selectSound p h)) p now st Hon _ Hgap).
    unfold resolveSelectedSound. simpl. rewrite Htruthy, Habs. simpl.
    rewrite bool_decide_eq_true_2 by exact Hfile. reflexivity.
  - intros e log Hdl. unfold onDidReceiveMessage. rewrite Hdl. reflexivity.
Qed.

Lemma download_message_selects_witness :
  handleError
    (onDisk (replay (snd (downloadFromUrl Demo.plainServer 3 0 "https://a.example/boom.mp3")) ∅)
       (selectSound "/store/sounds/custom-1700000000000.mp3" Samples.unixHost))
    1000 fresh
  = ({| lastPlayTime := 1000 |},
     Some {| filePath := "/store/sounds/custom-1700000000000.mp3"; volume := 80 |}).
Proof.
  refine (proj2 (proj1 (download_message_selects Samples.outside "https://a.example/boom.mp3"
                          Samples.unixHost ∅ 1000 fresh)
                   "/store/sounds/custom-1700000000000.mp3" _ eq_refl) eq_refl eq_refl _).
  discriminate.
Defined.

End HandlerFacts.

Module ExtensionFacts.
Import SfxManager Extension.

Lemma handleErrors_app h times1 times2 st :
  handleErrors h (times1 ++ times2) st
  = (fst (handleErrors h times2 (fst (handleErrors h times1 st))),
     snd (handleErrors h times1 st)
       ++ snd (handleErrors h times2 (fst (handleErrors h times1 st)))).
Proof.
  revert st. induction times1 as [|now rest IH]; intros st; simpl.
  - destruct (handleErrors h times2 st). reflexivity.
  - destruct (handleError h now st) as [st1 played]. rewrite IH.
    destruct (handleErrors h rest st1) as [st2 later]. simpl.
    destruct (handleErrors h times2 st2) as [st3 last]. simpl.
    destruct played; reflexivity.
Qed.

(** With the monitor wired to the manager, what is played over a whole
    session depends only on the executions that ended with a known,
    non-zero exit code: the session is the same as handing the times of
    those to [handleError] one by one, and executions that succeeded or
    whose code is unknown leave no trace, not even in the debounce
    state. *)
Theorem session_follows_failures h events st played :
  session h events (st, played)
  = (fst (handleErrors h (failures events) st),
     played ++ snd (handleErrors h (failures events) st)).
Proof.
  revert st played. induction events as [|[now event] rest IH]; intros st played.
  - simpl. rewrite app_nil_r. reflexivity.
  - simpl. unfold onShellExecutionEnd, TerminalMonitor.listener, failures. simpl.
    destruct (TerminalMonitor.exitCode event) as [code|]; [|apply IH].
    destruct (code =? 0); simpl; [apply IH|].
    unfold alert. simpl. destruct (handleError h now st) as [st1 one]. rewrite IH.
    fold (failures rest). destruct (handleErrors h (failures rest) st1) as [st2 later].
    simpl. destruct one; simpl; [rewrite <- app_assoc|rewrite app_nil_r]; reflexivity.
Qed.

End ExtensionFacts.
